(** * ht: a string-keyed open-addressing hash table (src/ht.c)

    A shallow embedding of [ht.c] and the properties its specification
    states about it.

    Modelling choices.
    - [size_t] and [uint64_t] are [Z] with the wrap-around modulo [2^64]
      written out ([wrap]).
    - The entries array is a [list ht_entry]; reading [entries[i]] outside
      the list is the fault [OutOfBounds].
    - Key strings owned by the table live in a store of [block]s; a key
      pointer is the address of its block, [None] is NULL.  [free] marks a
      block dead and reading a dead block is the fault [UseAfterFree].  The
      allocator may hand a freed block out again: [strdup] is given the
      address it returns, a freed block or new memory, by the environment.
    - [void*] values are [Z], NULL is [0].
    - Whether [malloc] and [calloc] succeed is a boolean chosen by the
      environment; for [strdup] the environment chooses failure or the
      address.
    - The mutex is not modelled: the properties below are about the calls
      of one thread, which sees the sequential behaviour of each call.
    - Loops take a fuel argument; [OutOfFuel] is the result of a loop that
      has not stopped within it.
    - A table is passed by value and is never NULL, so the [!table] test of
      [ht_remove] has no counterpart. *)

From Stdlib Require Import ZArith String Ascii Lia.
From stdpp Require Import base list.

Local Open Scope Z_scope.

(** ** Outcomes of a call *)

Inductive fault := UseAfterFree | OutOfBounds | AssertFailed.

Inductive outcome (A : Type) : Type :=
  | Ret (a : A)
  | Crash (f : fault)
  | OutOfFuel.
Arguments Ret {A} a.
Arguments Crash {A} f.
Arguments OutOfFuel {A}.

#[global] Instance outcome_ret : MRet outcome := fun _ a => Ret a.
#[global] Instance outcome_bind : MBind outcome := fun _ _ k m =>
  match m with
  | Ret a => k a
  | Crash f => Crash f
  | OutOfFuel => OutOfFuel
  end.

(** ** Machine integers *)

Definition wrap (z : Z) : Z := z mod 2 ^ 64.

(** ** C strings *)

(** The bytes of a NUL-terminated string: everything before the first NUL. *)
Fixpoint cstr (s : string) : string :=
  match s with
  | EmptyString => EmptyString
  | String c p => if Ascii.eqb c zero then EmptyString else String c (cstr p)
  end.

(** [strcmp(a, b) == 0] *)
Definition strcmp_eq (a b : string) : bool := String.eqb (cstr a) (cstr b).

(** ** The store of key strings *)

(** One block of the allocator: the string it holds while it is allocated.
    A freed block holds nothing. *)
Record block := { contents : string; live : bool }.

Abbreviation heap := (list block).

(** Reading the string at address [p]. *)
Definition load (h : heap) (p : nat) : outcome string :=
  match h !! p with
  | Some b => if live b then Ret (contents b) else Crash UseAfterFree
  | None => Crash UseAfterFree
  end.

(** [strdup(s)] when it succeeds: a block holding a copy of [s].  [addr] is
    where the allocator puts it: on a block that was freed, which is then in
    use again under the same address, or, for any other [addr], on new
    memory. *)
Definition strdup (h : heap) (s : string) (addr : nat) : nat * heap :=
  let b := {| contents := cstr s; live := true |} in
  match h !! addr with
  | Some old =>
      if live old then (List.length h, h ++ [b]) else (addr, <[ addr := b ]> h)
  | None => (List.length h, h ++ [b])
  end.

(** [free(p)] for a non-NULL [p]. *)
Definition free (h : heap) (p : nat) : outcome heap :=
  match h !! p with
  | Some b =>
      if live b then Ret (<[ p := {| contents := EmptyString; live := false |} ]> h)
      else Crash UseAfterFree
  | None => Crash UseAfterFree
  end.

(** ** Data model *)

Record ht_entry := { key : option nat; value : Z }.

Record ht := { entries : list ht_entry; capacity : Z; length : Z }.

Definition INITIAL_CAPACITY : Z := 16.

Definition empty_entry : ht_entry := {| key := None; value := 0 |}.

(** [calloc(n, sizeof(ht_entry))] when it succeeds. *)
Definition calloc (n : Z) : list ht_entry := replicate (Z.to_nat n) empty_entry.

(** [entries[i]] *)
Definition slot (es : list ht_entry) (i : Z) : outcome ht_entry :=
  match es !! Z.to_nat i with
  | Some e => Ret e
  | None => Crash OutOfBounds
  end.

Definition ht_create (malloc_ok calloc_ok mutex_ok : bool) : option ht :=
  if negb malloc_ok then None
  else if negb calloc_ok then None
  else if mutex_ok then
    Some {| entries := calloc INITIAL_CAPACITY; capacity := INITIAL_CAPACITY; length := 0 |}
  else None.

(** ** Hashing *)

Definition FNV_OFFSET : Z := 14695981039346656037.
Definition FNV_PRIME : Z := 1099511628211.

Fixpoint hash_loop (hash : Z) (p : string) : Z :=
  match p with
  | EmptyString => hash
  | String c p' =>
      if Ascii.eqb c zero then hash
      else hash_loop (wrap (Z.lxor hash (Z.of_N (N_of_ascii c)) * FNV_PRIME)) p'
  end.

Definition hash_key (k : string) : Z := hash_loop FNV_OFFSET k.

(** [hash & (capacity - 1)]: the slot where the probe for [k] starts. *)
Definition home (k : string) (cap : Z) : Z :=
  Z.land (hash_key k) (wrap (cap - 1)).

(** ** Probing *)

(** How the probe loop of [ht_get] and [ht_set_entry] stops: on a slot whose
    key compares equal, on an empty slot, or back at the starting index. *)
Inductive probe_stop :=
  | Match (i : Z) (e : ht_entry)
  | Vacant (i : Z)
  | Wrapped.

(** The loop shared, line for line, by [ht_get] and [ht_set_entry]:
    [while (entries[i].key != NULL) { if (strcmp(..) == 0) ..; i++;
     if (i >= capacity) i = 0; if (i == index) ..; }]. *)
Fixpoint probe (fuel : nat) (h : heap) (es : list ht_entry) (cap : Z)
    (k : string) (index i : Z) : outcome probe_stop :=
  match fuel with
  | O => OutOfFuel
  | S fuel' =>
      e ← slot es i;
      match key e with
      | None => Ret (Vacant i)
      | Some p =>
          s ← load h p;
          if strcmp_eq k s then Ret (Match i e)
          else
            let i1 := wrap (i + 1) in
            let i2 := if cap <=? i1 then 0 else i1 in
            if i2 =? index then Ret Wrapped
            else probe fuel' h es cap k index i2
      end
  end.

Definition ht_get (fuel : nat) (t : ht) (h : heap) (k : string) : outcome Z :=
  let index := home k (capacity t) in
  r ← probe fuel h (entries t) (capacity t) k index index;
  match r with
  | Match _ e => Ret (value e)
  | Vacant _ => Ret 0
  | Wrapped => Ret 0
  end.

(** ** Insertion *)

(** The two ways [ht_set_entry] is called: from [ht_set] with the caller's
    string and [plength = &table->length] (the key is copied and the length
    incremented), and from [ht_expand] with a key pointer taken from the old
    array and [plength = NULL] (the pointer is stored as it is).
    [strdup_res] is what the environment makes of the [strdup] call: [None]
    when it returns NULL, [Some addr] when it returns a copy placed as
    [strdup h k addr] says. *)
Inductive set_mode :=
  | Insert (k : string) (len : Z) (strdup_res : option nat)
  | Rehash (p : nat).

(** What [ht_set_entry] leaves behind: its return value (NULL is [None]),
    the array, the length behind [plength] (when there is one) and the
    store. *)
Record set_result := {
  sr_ret : option nat;
  sr_entries : list ht_entry;
  sr_length : option Z;
  sr_heap : heap
}.

Definition mode_length (m : set_mode) : option Z :=
  match m with
  | Insert _ len _ => Some len
  | Rehash _ => None
  end.

(** The string [key] points to. *)
Definition mode_key (h : heap) (m : set_mode) : outcome string :=
  match m with
  | Insert k _ _ => Ret k
  | Rehash p => load h p
  end.

Definition ht_set_entry (fuel : nat) (h : heap) (es : list ht_entry) (cap : Z)
    (m : set_mode) (v : Z) : outcome set_result :=
  k ← mode_key h m;
  let index := home k cap in
  r ← probe fuel h es cap k index index;
  match r with
  | Match i e =>
      Ret {| sr_ret := key e;
             sr_entries := <[ Z.to_nat i := {| key := key e; value := v |} ]> es;
             sr_length := mode_length m;
             sr_heap := h |}
  | Wrapped =>
      Ret {| sr_ret := None; sr_entries := es;
             sr_length := mode_length m; sr_heap := h |}
  | Vacant _ =>
      match m with
      | Insert _ len strdup_res =>
          match strdup_res with
          | Some addr =>
              let '(p, h') := strdup h k addr in
              Ret {| sr_ret := Some p;
                     sr_entries := <[ Z.to_nat index := {| key := Some p; value := v |} ]> es;
                     sr_length := Some (wrap (len + 1));
                     sr_heap := h' |}
          | None =>
              Ret {| sr_ret := None; sr_entries := es;
                     sr_length := Some len; sr_heap := h |}
          end
      | Rehash p =>
          Ret {| sr_ret := Some p;
                 sr_entries := <[ Z.to_nat index := {| key := Some p; value := v |} ]> es;
                 sr_length := None;
                 sr_heap := h |}
      end
  end.

(** The three ways an inserting call returns: nothing changed and NULL
    returned; the value of a slot with an equal key overwritten; or a copy of
    the key written, with the value, into the home slot. *)
Inductive insert_case (h : heap) (es : list ht_entry) (cap : Z) (k : string)
    (len : Z) (v : Z) (r : set_result) : Prop :=
  | insert_failed :
      sr_ret r = None -> sr_entries r = es -> sr_length r = Some len ->
      sr_heap r = h ->
      insert_case h es cap k len v r
  | insert_updated (i : Z) (e : ht_entry) (p : nat) (s : string) :
      es !! Z.to_nat i = Some e -> key e = Some p -> load h p = Ret s ->
      strcmp_eq k s = true ->
      sr_ret r = Some p ->
      sr_entries r = <[ Z.to_nat i := {| key := Some p; value := v |} ]> es ->
      sr_length r = Some len -> sr_heap r = h ->
      insert_case h es cap k len v r
  | insert_added (addr p : nat) (h' : heap) :
      strdup h k addr = (p, h') ->
      sr_ret r = Some p ->
      sr_entries r = <[ Z.to_nat (home k cap) :=
                          {| key := Some p; value := v |} ]> es ->
      sr_length r = Some (wrap (len + 1)) ->
      sr_heap r = h' ->
      insert_case h es cap k len v r.

(** ** Growth *)

(** The body of the [for] loop of [ht_expand], over the indices still to
    visit. *)
Fixpoint expand_loop (fuel : nat) (h : heap) (old : list ht_entry)
    (todo : list nat) (new_entries : list ht_entry) (new_capacity : Z)
    : outcome (list ht_entry) :=
  match todo with
  | [] => Ret new_entries
  | i :: todo' =>
      entry ← slot old (Z.of_nat i);
      match key entry with
      | None => expand_loop fuel h old todo' new_entries new_capacity
      | Some p =>
          r ← ht_set_entry fuel h new_entries new_capacity (Rehash p) (value entry);
          expand_loop fuel h old todo' (sr_entries r) new_capacity
      end
  end.

Definition ht_expand (fuel : nat) (calloc_ok : bool) (t : ht) (h : heap)
    : outcome (bool * ht) :=
  let new_capacity := wrap (capacity t * 2) in
  if new_capacity <? capacity t then Ret (false, t)
  else if negb calloc_ok then Ret (false, t)
  else
    new_entries ← expand_loop fuel h (entries t) (seq 0 (Z.to_nat (capacity t)))
                    (calloc new_capacity) new_capacity;
    Ret (true, {| entries := new_entries; capacity := new_capacity; length := length t |}).

(** The first half of [ht_set]: [if (length >= capacity / 2) expand].
    [None] is the failure of [ht_expand]; [Some t'] is the table the probe
    phase starts from. *)
Definition grow_if_needed (fuel : nat) (calloc_ok : bool) (t : ht) (h : heap)
    : outcome (option ht) :=
  if capacity t / 2 <=? length t then
    '(ok, t') ← ht_expand fuel calloc_ok t h;
    Ret (if ok : bool then Some t' else None)
  else Ret (Some t).

(** [ht_set].  [ndebug] tells whether [assert] is compiled out. *)
Definition ht_set (fuel : nat) (ndebug calloc_ok : bool) (strdup_res : option nat)
    (t : ht) (h : heap) (k : string) (v : Z) : outcome (Z * ht * heap) :=
  if v =? 0 then
    if ndebug then Ret (-1, t, h) else Crash AssertFailed
  else
    g ← grow_if_needed fuel calloc_ok t h;
    match g with
    | None => Ret (-1, t, h)
    | Some t' =>
        r ← ht_set_entry fuel h (entries t') (capacity t')
              (Insert k (length t') strdup_res) v;
        Ret (match sr_ret r with Some _ => 0 | None => -1 end,
             {| entries := sr_entries r;
                capacity := capacity t';
                length := default (length t') (sr_length r) |},
             sr_heap r)
    end.

Definition ht_length (t : ht) : Z := length t.

(** ** Iteration *)

(** The iterator; its table is passed along with it.  [it_key] and
    [it_value] are the fields [key] and [value] of [hti]. *)
Record hti := { _index : Z; it_key : option nat; it_value : Z }.

Definition ht_iterator : hti := {| _index := 0; it_key := None; it_value := 0 |}.

Fixpoint ht_next (fuel : nat) (t : ht) (it : hti) : outcome (bool * hti) :=
  match fuel with
  | O => OutOfFuel
  | S fuel' =>
      if _index it <? capacity t then
        let i := _index it in
        let it1 := {| _index := wrap (i + 1); it_key := it_key it; it_value := it_value it |} in
        e ← slot (entries t) i;
        match key e with
        | Some p =>
            Ret (true, {| _index := _index it1; it_key := Some p; it_value := value e |})
        | None => ht_next fuel' t it1
        end
      else Ret (false, it)
  end.

(** The client loop [while (ht_next(&it)) visit(it.key, it.value)]: the
    pairs a cursor hands out until it reports exhaustion. *)
Fixpoint cursor_yield (rounds fuel : nat) (t : ht) (it : hti)
    : outcome (list (option nat * Z)) :=
  match rounds with
  | O => OutOfFuel
  | S rounds' =>
      '(more, it') ← ht_next fuel t it;
      if more : bool then
        rest ← cursor_yield rounds' fuel t it';
        Ret ((it_key it', it_value it') :: rest)
      else Ret []
  end.

(** ** Removal *)

(** The loop of [ht_remove]: [index] is never advanced. *)
Fixpoint remove_loop (fuel : nat) (t : ht) (h : heap) (k : string) (index : Z)
    : outcome (Z * ht * heap) :=
  match fuel with
  | O => OutOfFuel
  | S fuel' =>
      e ← slot (entries t) index;
      match key e with
      | None => Ret (-1, t, h)
      | Some p =>
          s ← load h p;
          if strcmp_eq k s then
            h' ← free h p;
            Ret (0, {| entries := entries t; capacity := capacity t;
                       length := wrap (length t - 1) |}, h')
          else remove_loop fuel' t h k index
      end
  end.

Definition ht_remove (fuel : nat) (t : ht) (h : heap) (k : string)
    : outcome (Z * ht * heap) :=
  let index := home k (capacity t) in
  e ← slot (entries t) index;
  match key e with
  | None => Ret (-1, t, h)
  | Some _ => remove_loop fuel t h k index
  end.


(** ** Table states and how they arise *)

(** A table together with the store its key pointers refer to. *)
Definition state : Type := ht * heap.

(** One completed call of a mutating operation. *)
Inductive step : state -> state -> Prop :=
  | step_set fuel ndebug calloc_ok strdup_res t h k v r t' h' :
      ht_set fuel ndebug calloc_ok strdup_res t h k v = Ret (r, t', h') ->
      step (t, h) (t', h')
  | step_remove fuel t h k r t' h' :
      ht_remove fuel t h k = Ret (r, t', h') ->
      step (t, h) (t', h').

(** The states reachable from [ht_create] by calls that return. *)
Inductive reachable : state -> Prop :=
  | reach_create malloc_ok calloc_ok mutex_ok t h :
      ht_create malloc_ok calloc_ok mutex_ok = Some t ->
      reachable (t, h)
  | reach_step s s' :
      reachable s -> step s s' -> reachable s'.

(** The states reachable from [ht_create] by calls of [ht_set] alone. *)
Inductive reachable_by_set : state -> Prop :=
  | set_create malloc_ok calloc_ok mutex_ok t h :
      ht_create malloc_ok calloc_ok mutex_ok = Some t ->
      reachable_by_set (t, h)
  | set_step fuel ndebug calloc_ok strdup_res t h k v r t' h' :
      reachable_by_set (t, h) ->
      ht_set fuel ndebug calloc_ok strdup_res t h k v = Ret (r, t', h') ->
      reachable_by_set (t', h').

(** A script of calls, every allocation succeeding; the result codes are
    collected in call order.  [DoSet] has its key copied to new memory,
    [DoSetAt] to the address given (see [strdup]). *)
Inductive op :=
  | DoSet (k : string) (v : Z)
  | DoRemove (k : string)
  | DoSetAt (k : string) (v : Z) (addr : nat).

(** The calls that are not removals. *)
Definition is_set (o : op) : bool :=
  match o with
  | DoRemove _ => false
  | _ => true
  end.

Definition run_op (fuel : nat) (s : state) (o : op) : outcome (Z * ht * heap) :=
  match o with
  | DoSet k v => ht_set fuel true true (Some (List.length s.2)) s.1 s.2 k v
  | DoRemove k => ht_remove fuel s.1 s.2 k
  | DoSetAt k v addr => ht_set fuel true true (Some addr) s.1 s.2 k v
  end.

Fixpoint run (fuel : nat) (ops : list op) (s : state) : outcome (list Z * state) :=
  match ops with
  | [] => Ret ([], s)
  | o :: ops' =>
      '(r, t, h) ← run_op fuel s o;
      '(rs, s') ← run fuel ops' (t, h);
      Ret (r :: rs, s')
  end.

(** The table [ht_create] returns. *)
Definition fresh : ht :=
  {| entries := calloc INITIAL_CAPACITY; capacity := INITIAL_CAPACITY; length := 0 |}.

(** The state a script leaves behind when run on a new table with an empty
    store. *)
Definition after (ops : list op) : state :=
  match run 64 ops (fresh, []) with
  | Ret (_, s) => s
  | _ => (fresh, [])
  end.

(** The table and store after [ht_set(table, "a", 1)] on a new table; the
    same after a second [ht_set(table, "a", 2)]; and after
    [ht_remove(table, "a")]. *)
Definition table_a : ht :=
  {| entries := <[ 12%nat := {| key := Some 0%nat; value := 1 |} ]> (calloc 16);
     capacity := 16; length := 1 |}.

Definition heap_a : heap := [ {| contents := "a"; live := true |} ].

Definition table_a_again : ht :=
  {| entries := <[ 12%nat := {| key := Some 0%nat; value := 2 |} ]> (calloc 16);
     capacity := 16; length := 1 |}.

Definition table_a_removed : ht :=
  {| entries := entries table_a; capacity := 16; length := 0 |}.

Definition heap_a_freed : heap := [ {| contents := ""; live := false |} ].

(** A table holding eight keys with eight different home slots, and the
    table [ht_expand] makes of it. *)
Definition eight_keys : state :=
  after [DoSet "a" 1; DoSet "b" 2; DoSet "c" 3; DoSet "d" 4;
         DoSet "e" 5; DoSet "f" 6; DoSet "g" 7; DoSet "h" 8].

Definition eight_keys_grown : ht :=
  match ht_expand 64 true eight_keys.1 eight_keys.2 with
  | Ret (_, t) => t
  | _ => eight_keys.1
  end.

(** The slot [k] is looked up in first holds a live key equal to [k], with
    value [v]. *)
Definition present (k : string) (v : Z) (t : ht) (h : heap) : Prop :=
  exists e p b,
    entries t !! Z.to_nat (home k (capacity t)) = Some e /\
    key e = Some p /\ value e = v /\
    h !! p = Some b /\ live b = true /\ strcmp_eq k (contents b) = true.

(** ** Invariants *)

(** Number of elements of [l] satisfying [f]. *)
Fixpoint count {A : Type} (f : A -> bool) (l : list A) : nat :=
  match l with
  | [] => O
  | x :: l' => ((if f x then 1 else 0) + count f l')%nat
  end.

(** The slot holds a key pointer whose block has not been freed. *)
Definition is_live (h : heap) (e : ht_entry) : bool :=
  match key e with
  | Some p => match h !! p with Some b => live b | None => false end
  | None => false
  end.

Definition live_at (h : heap) (es : list ht_entry) (i : nat) : bool :=
  match es !! i with Some e => is_live h e | None => false end.

(** Every occupied slot [i] points to an allocated key string whose home
    index is [i]. *)
Definition homed (h : heap) (es : list ht_entry) (cap : Z) : Prop :=
  forall (i : nat) (e : ht_entry) (p : nat),
    es !! i = Some e -> key e = Some p ->
    exists b, h !! p = Some b /\ live b = true /\
              home (contents b) cap = Z.of_nat i.

(** The same for the slots whose key string has not been freed, saying
    nothing of the others: every key that can be read in slot [i] has home
    index [i]. *)
Definition live_keys_homed (h : heap) (es : list ht_entry) (cap : Z) : Prop :=
  forall (i : nat) (e : ht_entry) (p : nat) (b : block),
    es !! i = Some e -> key e = Some p -> h !! p = Some b -> live b = true ->
    home (contents b) cap = Z.of_nat i.

Definition pow2_cap (cap : Z) : Prop :=
  exists n, 4 <= n <= 63 /\ cap = 2 ^ n.

(** The key pointer of every occupied slot satisfies [KP] and its value
    satisfies [VP]. *)
Definition fits (KP : nat -> Prop) (VP : Z -> Prop) (es : list ht_entry) : Prop :=
  forall (j : nat) (e : ht_entry) (q : nat),
    es !! j = Some e -> key e = Some q -> KP q /\ VP (value e).

(** What every reachable table satisfies.  [owned] lists the key strings
    the table has allocated and not freed; a slot may point to none of them
    (after [ht_remove]) and two slots may point to the same one (when a
    freed address came back from [strdup]). *)
Record ht_wf (t : ht) (h : heap) : Prop := {
  wf_cap : pow2_cap (capacity t);
  wf_len : Z.of_nat (List.length (entries t)) = capacity t;
  wf_load : 0 <= length t <= capacity t / 2;
  wf_own : exists owned : list nat,
      NoDup owned /\
      (forall p, p ∈ owned -> exists b, h !! p = Some b /\ live b = true) /\
      (forall (i : nat) e p b, entries t !! i = Some e -> key e = Some p ->
         h !! p = Some b -> live b = true -> p ∈ owned) /\
      Z.of_nat (List.length owned) <= length t
}.

(** What a table satisfies as long as nothing was removed from it. *)
Record ht_inv (t : ht) (h : heap) : Prop := {
  inv_cap : pow2_cap (capacity t);
  inv_len : Z.of_nat (List.length (entries t)) = capacity t;
  inv_load : 0 <= length t <= capacity t / 2;
  inv_home : homed h (entries t) (capacity t);
  inv_live : Z.of_nat (count (is_live h) (entries t)) <= length t
}.

(** ** Destruction *)

(** The loop of [ht_destroy]: [free] of the key pointer of every slot;
    [free(NULL)] does nothing. *)
Fixpoint destroy_loop (h : heap) (es : list ht_entry) (todo : list nat)
    : outcome heap :=
  match todo with
  | [] => Ret h
  | i :: todo' =>
      e ← slot es (Z.of_nat i);
      h' ← match key e with
            | Some p => free h p
            | None => Ret h
            end;
      destroy_loop h' es todo'
  end.

(** [ht_destroy]: what is left of the store of key strings.  The mutex, the
    entries array and the table itself are gone with the call. *)
Definition ht_destroy (t : ht) (h : heap) : outcome heap :=
  destroy_loop h (entries t) (seq 0 (Z.to_nat (capacity t))).

(** ** Vocabulary of the further properties *)

(** Key pointer and value of every occupied slot, in array order. *)
Fixpoint occupied (es : list ht_entry) : list (option nat * Z) :=
  match es with
  | [] => []
  | e :: es' =>
      match key e with
      | Some p => (Some p, value e) :: occupied es'
      | None => occupied es'
      end
  end.

(** Number of slots a probe that started at [index] has left behind when it
    stands at [i]. *)
Definition steps_from (cap index i : Z) : Z :=
  if index <=? i then i - index else i - index + cap.

(** Every key pointer stored in the array refers to a string that has not
    been freed. *)
Definition all_live (h : heap) (es : list ht_entry) : Prop :=
  forall (i : nat) (e : ht_entry) (p : nat),
    es !! i = Some e -> key e = Some p -> exists s, load h p = Ret s.

(** The table and store after [ht_set(table, "a", 1)] followed by
    [ht_set(table, "b", 2)], whose keys start at different slots, and after
    [ht_set(table, "a", 1)] followed by [ht_set(table, "q", 2)], whose keys
    start at the same slot. *)
Definition table_ab : ht :=
  {| entries := <[ 5%nat := {| key := Some 1%nat; value := 2 |} ]>
                  (<[ 12%nat := {| key := Some 0%nat; value := 1 |} ]> (calloc 16));
     capacity := 16; length := 2 |}.

Definition heap_ab : heap :=
  [ {| contents := "a"; live := true |}; {| contents := "b"; live := true |} ].

Definition table_aq : ht :=
  {| entries := <[ 12%nat := {| key := Some 1%nat; value := 2 |} ]> (calloc 16);
     capacity := 16; length := 2 |}.

Definition heap_aq : heap :=
  [ {| contents := "a"; live := true |}; {| contents := "q"; live := true |} ].

(** [table_a] after [ht_expand]. *)
Definition table_a_grown : ht :=
  {| entries := <[ 12%nat := {| key := Some 0%nat; value := 1 |} ]> (calloc 32);
     capacity := 32; length := 1 |}.

(** A table with two slots pointing to one key string: ["j"] is set and
    removed, its block is handed out again for ["a"], and ["q"], which
    starts at the slot of ["a"], takes that slot; ["a"] is left in the slot
    ["j"] had.  And the same table after one more [ht_set(table, "a", 9)]. *)
Definition aliased : state :=
  after [DoSet "j" 1; DoRemove "j"; DoSetAt "a" 1 0; DoSet "q" 3].

Definition aliased_again : state :=
  after [DoSet "j" 1; DoRemove "j"; DoSetAt "a" 1 0; DoSet "q" 3; DoSet "a" 9].

(** No occupied slot holds a NULL value. *)
Definition values_set (es : list ht_entry) : Prop :=
  forall (i : nat) (e : ht_entry) (p : nat),
    es !! i = Some e -> key e = Some p -> value e <> 0.

(** * Properties *)

(** ** Outcomes *)

Lemma bind_Ret {A B : Type} (m : outcome A) (k : A -> outcome B) (b : B) :
  mbind k m = Ret b -> exists a, m = Ret a /\ k a = Ret b.
Proof.
  destruct m as [a| |]; simpl; intros H; try discriminate.
  exists a. split; [reflexivity | exact H].
Qed.

(** Splits a hypothesis [x ← m; k x = Ret b] into [m = Ret a] and
    [k a = Ret b]. *)
Ltac inv_bind H :=
  let a := fresh "a" in
  let Ha := fresh "Hrun" in
  apply bind_Ret in H; destruct H as (a & Ha & H).

(** Linear arithmetic with the halving [capacity / 2]. *)
Ltac dlia := Z.div_mod_to_equations; lia.

(** ** Machine integers, strings and hashing *)

Lemma wrap_range z : 0 <= wrap z < 2 ^ 64.
Proof. unfold wrap. apply Z.mod_pos_bound. lia. Qed.

Lemma wrap_small z : 0 <= z < 2 ^ 64 -> wrap z = z.
Proof. unfold wrap. apply Z.mod_small. Qed.

Lemma cstr_idem s : cstr (cstr s) = cstr s.
Proof.
  induction s as [|c s IH]; simpl; [reflexivity|].
  destruct (Ascii.eqb c zero) eqn:E; simpl; [reflexivity|].
  rewrite E, IH. reflexivity.
Qed.

Lemma hash_loop_cstr s : forall a, hash_loop a (cstr s) = hash_loop a s.
Proof.
  induction s as [|c s IH]; intros a; simpl; [reflexivity|].
  destruct (Ascii.eqb c zero) eqn:E; simpl; [reflexivity|].
  rewrite E. apply IH.
Qed.

Lemma home_cstr s cap : home (cstr s) cap = home s cap.
Proof. unfold home, hash_key. rewrite hash_loop_cstr. reflexivity. Qed.

Lemma strcmp_eq_cstr k : strcmp_eq k (cstr k) = true.
Proof. unfold strcmp_eq. rewrite cstr_idem. apply String.eqb_refl. Qed.

Lemma strcmp_eq_home a b cap : strcmp_eq a b = true -> home a cap = home b cap.
Proof.
  unfold strcmp_eq. intros H. apply String.eqb_eq in H.
  rewrite <- (home_cstr a), <- (home_cstr b), H. reflexivity.
Qed.

Lemma hash_loop_range s : forall a, 0 <= a < 2 ^ 64 -> 0 <= hash_loop a s < 2 ^ 64.
Proof.
  induction s as [|c s IH]; intros a Ha; simpl; [exact Ha|].
  destruct (Ascii.eqb c zero); [exact Ha|].
  apply IH, wrap_range.
Qed.

Lemma hash_key_range k : 0 <= hash_key k < 2 ^ 64.
Proof. apply hash_loop_range. unfold FNV_OFFSET. lia. Qed.

(** With a power-of-two capacity the mask is a remainder. *)
Lemma home_pow2 k n : 0 <= n <= 64 -> home k (2 ^ n) = hash_key k mod 2 ^ n.
Proof.
  intros Hn. unfold home.
  assert (0 < 2 ^ n) by (apply Z.pow_pos_nonneg; lia).
  assert (2 ^ n <= 2 ^ 64) by (apply Z.pow_le_mono_r; lia).
  rewrite wrap_small by lia.
  replace (2 ^ n - 1) with (Z.ones n) by (rewrite Z.ones_equiv; lia).
  apply Z.land_ones. lia.
Qed.

Lemma home_range k n : 0 <= n <= 64 -> 0 <= home k (2 ^ n) < 2 ^ n.
Proof.
  intros Hn. rewrite home_pow2 by exact Hn.
  apply Z.mod_pos_bound, Z.pow_pos_nonneg; lia.
Qed.

(** The home index for the doubled capacity determines the one for the
    capacity before doubling. *)
Lemma home_double k n :
  0 <= n <= 63 -> home k (2 * 2 ^ n) mod 2 ^ n = home k (2 ^ n).
Proof.
  intros Hn.
  replace (2 * 2 ^ n) with (2 ^ (n + 1)) by (rewrite Z.pow_add_r by lia; lia).
  rewrite !home_pow2 by lia.
  apply Z.mod_mod_divide.
  exists 2. rewrite Z.pow_add_r by lia. lia.
Qed.

Lemma pow2_cap_range cap : pow2_cap cap -> 16 <= cap <= 2 ^ 63.
Proof.
  intros (n & Hn & ->). split.
  - change 16 with (2 ^ 4). apply Z.pow_le_mono_r; lia.
  - apply Z.pow_le_mono_r; lia.
Qed.

(** ** The key store *)

Lemma load_Ret h p s :
  load h p = Ret s <-> exists b, h !! p = Some b /\ live b = true /\ contents b = s.
Proof.
  unfold load. split.
  - destruct (h !! p) as [b|]; [|discriminate].
    destruct (live b) eqn:E; [|discriminate].
    intros [= <-]. eauto.
  - intros (b & -> & -> & <-). reflexivity.
Qed.

Lemma free_Ret h p h' :
  free h p = Ret h' ->
  exists b, h !! p = Some b /\ live b = true /\
            h' = <[ p := {| contents := EmptyString; live := false |} ]> h.
Proof.
  unfold free. destruct (h !! p) as [b|]; [|discriminate].
  destruct (live b) eqn:E; [|discriminate].
  intros [= <-]. eauto.
Qed.

(** What a freed block leaves of the store. *)
Lemma free_spec h p h' :
  free h p = Ret h' ->
  (exists b, h !! p = Some b /\ live b = true) /\
  h' !! p = Some {| contents := EmptyString; live := false |} /\
  (forall q, q <> p -> h' !! q = h !! q).
Proof.
  intros H. apply free_Ret in H as (b & Hb & Hlive & ->).
  split; [eauto|]. split.
  - apply list_lookup_insert_eq. eapply lookup_lt_Some, Hb.
  - intros q Hq. apply list_lookup_insert_ne. congruence.
Qed.

(** What a copied string adds to the store: it sits at an address that was
    not in use, and every other block is as it was. *)
Lemma strdup_spec h s addr p h' :
  strdup h s addr = (p, h') ->
  h' !! p = Some {| contents := cstr s; live := true |} /\
  (forall b, h !! p = Some b -> live b = false) /\
  (forall q, q <> p -> h' !! q = h !! q).
Proof.
  unfold strdup.
  assert (Hfresh : forall b0,
            (h ++ [b0]) !! List.length h = Some b0 /\
            (forall b, h !! List.length h = Some b -> live b = false) /\
            (forall q, q <> List.length h -> (h ++ [b0]) !! q = h !! q)).
  { intros b0. split; [apply list_lookup_middle; reflexivity|]. split.
    - intros b Hb. apply lookup_lt_Some in Hb. lia.
    - intros q Hq. destruct (decide (q < List.length h)%nat) as [Hlt|Hge].
      + apply lookup_app_l. exact Hlt.
      + rewrite (lookup_ge_None_2 h q) by lia.
        apply lookup_ge_None_2. rewrite length_app. simpl. lia. }
  destruct (h !! addr) as [old|] eqn:Ha.
  - destruct (live old) eqn:Hl.
    + intros [= <- <-]. apply Hfresh.
    + intros [= <- <-]. split; [|split].
      * apply list_lookup_insert_eq. eapply lookup_lt_Some, Ha.
      * intros b Hb. congruence.
      * intros q Hq. apply list_lookup_insert_ne. congruence.
  - intros [= <- <-]. apply Hfresh.
Qed.

Lemma slot_Ret es i e : slot es i = Ret e <-> es !! Z.to_nat i = Some e.
Proof.
  unfold slot. destruct (es !! Z.to_nat i); split; congruence.
Qed.

(** ** The probe loop *)

Lemma probe_start fuel h es cap k index i r :
  probe fuel h es cap k index i = Ret r ->
  exists e, es !! Z.to_nat i = Some e.
Proof.
  destruct fuel as [|fuel]; simpl; [discriminate|].
  intros H. inv_bind H. apply slot_Ret in Hrun. eauto.
Qed.

Lemma probe_Match fuel h es cap k index : forall i j e,
  probe fuel h es cap k index i = Ret (Match j e) ->
  es !! Z.to_nat j = Some e /\
  exists p s, key e = Some p /\ load h p = Ret s /\ strcmp_eq k s = true.
Proof.
  induction fuel as [|fuel IH]; intros i j e; simpl; [discriminate|].
  intros H. inv_bind H. apply slot_Ret in Hrun.
  destruct (key a) as [p|] eqn:Hk; [|discriminate].
  inv_bind H. destruct (strcmp_eq k a0) eqn:Hs.
  - injection H as <- <-. split; [exact Hrun|]. eauto.
  - destruct (_ =? index); [discriminate|]. eapply IH, H.
Qed.

Lemma probe_first_match fuel h es cap k index i e p s :
  es !! Z.to_nat i = Some e -> key e = Some p -> load h p = Ret s ->
  strcmp_eq k s = true ->
  probe (S fuel) h es cap k index i = Ret (Match i e).
Proof.
  intros He Hk Hl Hs. simpl.
  apply slot_Ret in He. rewrite He. simpl. rewrite Hk, Hl. simpl.
  rewrite Hs. reflexivity.
Qed.

Lemma probe_first_vacant fuel h es cap k index i e :
  es !! Z.to_nat i = Some e -> key e = None ->
  probe (S fuel) h es cap k index i = Ret (Vacant i).
Proof.
  intros He Hk. simpl. apply slot_Ret in He. rewrite He. simpl.
  rewrite Hk. reflexivity.
Qed.

(** ** [ht_set_entry], case by case *)

Lemma ht_set_entry_insert fuel h es cap k len strdup_res v r :
  ht_set_entry fuel h es cap (Insert k len strdup_res) v = Ret r ->
  (exists e0, es !! Z.to_nat (home k cap) = Some e0) /\
  insert_case h es cap k len v r.
Proof.
  unfold ht_set_entry. simpl. intros H. inv_bind H.
  split; [eapply probe_start, Hrun|].
  destruct a as [i e| i |].
  - apply probe_Match in Hrun as (He & p & s & Hk & Hl & Hs).
    injection H as <-. rewrite Hk.
    eapply insert_updated; eauto.
  - destruct strdup_res as [addr|].
    + destruct (strdup h k addr) as [p h'] eqn:Hs. injection H as <-.
      eapply insert_added; eauto.
    + injection H as <-. apply insert_failed; reflexivity.
  - injection H as <-. apply insert_failed; reflexivity.
Qed.

(** A failing insertion changes nothing. *)
Lemma ht_set_entry_insert_failed fuel h es cap k len strdup_res v r :
  ht_set_entry fuel h es cap (Insert k len strdup_res) v = Ret r ->
  sr_ret r = None ->
  sr_entries r = es /\ sr_length r = Some len /\ sr_heap r = h.
Proof.
  intros H Hnull. apply ht_set_entry_insert in H as [_ Hc].
  destruct Hc as [? ? ? ?|? ? ? ? ? ? ? ? Hr|? ? ? ? Hr]; [auto|congruence..].
Qed.

(** ** Counting *)

Lemma count_insert_le {A} (f : A -> bool) (l : list A) : forall i x,
  (count f (<[ i := x ]> l) <= count f l + 1)%nat.
Proof.
  induction l as [|y l IH]; intros i x; simpl; [lia|].
  destruct i as [|i]; simpl.
  - destruct (f x), (f y); lia.
  - specialize (IH i x). lia.
Qed.

Lemma count_insert_same {A} (f : A -> bool) (l : list A) : forall i x y,
  l !! i = Some y -> f x = f y -> count f (<[ i := x ]> l) = count f l.
Proof.
  induction l as [|z l IH]; intros i x y; [discriminate|].
  destruct i as [|i]; simpl.
  - intros [= ->] ->. reflexivity.
  - intros Hy Hf. rewrite (IH i x y Hy Hf). reflexivity.
Qed.

Lemma count_mono {A} (f g : A -> bool) (l : list A) :
  (forall x, x ∈ l -> f x = true -> g x = true) ->
  (count f l <= count g l)%nat.
Proof.
  induction l as [|y l IH]; intros H; simpl; [lia|].
  assert (count f l <= count g l)%nat.
  { apply IH. intros x Hx. apply H. by right. }
  specialize (H y (list_elem_of_here _ _)).
  destruct (f y), (g y); lia.
Qed.

Lemma count_drop {A} (f g : A -> bool) (l : list A) : forall i y,
  (forall x, x ∈ l -> f x = true -> g x = true) ->
  l !! i = Some y -> g y = true -> f y = false ->
  (count f l + 1 <= count g l)%nat.
Proof.
  induction l as [|z l IH]; intros i y H Hy Hg Hf; [discriminate|].
  assert (Hl : forall x, x ∈ l -> f x = true -> g x = true).
  { intros x Hx. apply H. by right. }
  destruct i as [|i]; simpl in *.
  - injection Hy as ->. rewrite Hg, Hf.
    pose proof (count_mono f g l Hl). lia.
  - specialize (IH i y Hl Hy Hg Hf).
    specialize (H z (list_elem_of_here _ _)).
    destruct (f z), (g z); lia.
Qed.

Lemma count_ext {A} (f g : A -> bool) (l : list A) :
  (forall x, x ∈ l -> f x = g x) -> count f l = count g l.
Proof.
  induction l as [|y l IH]; intros E; simpl; [reflexivity|].
  rewrite (E y) by left. rewrite IH; [reflexivity|].
  intros x Hx. apply E. by right.
Qed.

Lemma count_seq_lookup {A} (g : option A -> bool) (l : list A) : forall a,
  count (fun i => g (l !! (i - a)%nat)) (seq a (List.length l))
  = count (fun x => g (Some x)) l.
Proof.
  induction l as [|x l IH]; intros a; simpl; [reflexivity|].
  replace (a - a)%nat with O by lia. simpl. f_equal.
  rewrite <- (IH (S a)).
  apply count_ext. intros i Hi. apply elem_of_seq in Hi.
  replace (i - a)%nat with (S (i - S a)) by lia. reflexivity.
Qed.

Lemma count_live_at h es :
  count (live_at h es) (seq 0 (List.length es)) = count (is_live h) es.
Proof.
  etransitivity;
    [|apply (count_seq_lookup
               (fun o => match o with Some e => is_live h e | None => false end)
               es 0%nat)].
  apply count_ext. intros i _. unfold live_at.
  replace (i - 0)%nat with i by lia. reflexivity.
Qed.

(** ** The home-slot property under updates *)

Lemma home_nonneg k cap : 0 <= home k cap.
Proof.
  unfold home. apply Z.land_nonneg. left. apply hash_key_range.
Qed.

Lemma homed_insert h es cap (i : nat) p b v :
  homed h es cap -> h !! p = Some b -> live b = true ->
  home (contents b) cap = Z.of_nat i ->
  homed h (<[ i := {| key := Some p; value := v |} ]> es) cap.
Proof.
  intros Hes Hp Hlive Hb j e q Hj Hq.
  destruct (decide (i = j)) as [->|Hne].
  - assert (Hlt : (j < List.length es)%nat).
    { apply lookup_lt_Some in Hj. rewrite length_insert in Hj. exact Hj. }
    rewrite list_lookup_insert_eq in Hj by exact Hlt.
    injection Hj as <-. simpl in Hq. injection Hq as <-. eauto.
  - rewrite list_lookup_insert_ne in Hj by exact Hne. eapply Hes; eauto.
Qed.

Lemma homed_strdup h es cap s addr p h' :
  homed h es cap -> strdup h s addr = (p, h') -> homed h' es cap.
Proof.
  intros Hes Hs j e q Hj Hq.
  destruct (Hes j e q Hj Hq) as (b & Hb & Hlive & Hh).
  apply strdup_spec in Hs as (_ & Hfree & Hsame).
  exists b. split; [|auto]. rewrite Hsame; [exact Hb|].
  intros ->. specialize (Hfree _ Hb). congruence.
Qed.

Lemma homed_calloc h n cap : homed h (calloc n) cap.
Proof.
  intros j e q Hj Hq. unfold calloc in Hj.
  apply lookup_replicate in Hj as [-> _]. discriminate.
Qed.

Lemma is_live_strdup h es cap s addr p h' e :
  homed h es cap -> strdup h s addr = (p, h') -> e ∈ es ->
  is_live h' e = is_live h e.
Proof.
  intros Hes Hs He. apply list_elem_of_lookup in He as [j Hj].
  unfold is_live. destruct (key e) as [q|] eqn:Hq; [|reflexivity].
  destruct (Hes j e q Hj Hq) as (b & Hb & Hlive & _).
  apply strdup_spec in Hs as (_ & Hfree & Hsame).
  rewrite Hsame; [reflexivity|].
  intros ->. specialize (Hfree _ Hb). congruence.
Qed.

(** ** Growth *)

Lemma ht_set_entry_rehash_key fuel h es cap p v r :
  ht_set_entry fuel h es cap (Rehash p) v = Ret r -> exists s, load h p = Ret s.
Proof.
  unfold ht_set_entry. simpl. intros H. inv_bind H. eauto.
Qed.

Lemma ht_set_entry_rehash_vacant fuel h es cap p s e0 v r :
  load h p = Ret s ->
  es !! Z.to_nat (home s cap) = Some e0 -> key e0 = None ->
  ht_set_entry fuel h es cap (Rehash p) v = Ret r ->
  sr_entries r = <[ Z.to_nat (home s cap) := {| key := Some p; value := v |} ]> es.
Proof.
  intros Hl He Hk. unfold ht_set_entry. simpl. rewrite Hl. simpl.
  destruct fuel as [|fuel]; [discriminate|].
  rewrite (probe_first_vacant _ _ _ _ _ _ _ _ He Hk). simpl.
  intros [= <-]. reflexivity.
Qed.

Section Expand.
Variables (fuel : nat) (h : heap) (old : list ht_entry) (n : Z).
Hypothesis Hn : 0 <= n <= 62.
Hypothesis Hold : homed h old (2 ^ n).

(** The slot a key of the old array is moved to is still free when its
    turn comes: the keys moved before it came from other old slots, and
    two keys with different home slots keep different home slots when the
    capacity doubles. *)
Lemma rehash_target_vacant todo new (i : nat) entry p s :
  Z.of_nat (List.length new) = (2 * 2 ^ n) ->
  homed h new (2 * 2 ^ n) ->
  (forall j e q, new !! j = Some e -> key e = Some q ->
                 exists i0, (i0 ∉ i :: todo) /\ old !! i0 = Some e) ->
  old !! i = Some entry -> key entry = Some p -> load h p = Ret s ->
  exists e0, new !! Z.to_nat (home s (2 * 2 ^ n)) = Some e0 /\ key e0 = None.
Proof using Hn Hold.
  intros Hlen Hnew Horigin Hi Hp Hl.
  assert (Hr : 0 <= home s (2 * 2 ^ n) < (2 * 2 ^ n)).
  { replace (2 * 2 ^ n) with (2 ^ (n + 1))
      by (rewrite Z.pow_add_r by lia; lia).
    apply home_range. lia. }
  destruct (lookup_lt_is_Some_2 new (Z.to_nat (home s (2 * 2 ^ n)))) as [e0 He0]; [lia|].
  exists e0. split; [exact He0|].
  destruct (key e0) as [q|] eqn:Hq; [exfalso|reflexivity].
  destruct (Horigin _ _ _ He0 Hq) as (i0 & Hnotin & Hi0).
  destruct (Hnew _ _ _ He0 Hq) as (b0 & Hb0 & _ & Hh0).
  destruct (Hold _ _ _ Hi0 Hq) as (b0' & Hb0' & _ & Hh0').
  destruct (Hold _ _ _ Hi Hp) as (b & Hb & _ & Hh).
  apply load_Ret in Hl as (b' & Hb' & _ & Hc).
  assert (b0' = b0) by congruence. assert (b' = b) by congruence. subst b0' b'.
  rewrite Hc in Hh.
  pose proof (home_double (contents b0) n ltac:(lia)) as D0.
  pose proof (home_double s n ltac:(lia)) as D.
  rewrite Hh0' in D0. rewrite Hh in D.
  rewrite Hh0, Z2Nat.id in D0 by lia.
  assert (i0 = i) by lia. subst i0. apply Hnotin. left.
Qed.

Lemma expand_loop_spec : forall todo new new',
  NoDup todo ->
  Z.of_nat (List.length new) = (2 * 2 ^ n) ->
  homed h new (2 * 2 ^ n) ->
  (forall j e q, new !! j = Some e -> key e = Some q ->
                 exists i0, (i0 ∉ todo) /\ old !! i0 = Some e) ->
  expand_loop fuel h old todo new (2 * 2 ^ n) = Ret new' ->
  Z.of_nat (List.length new') = (2 * 2 ^ n) /\
  homed h new' (2 * 2 ^ n) /\
  (forall j e q, new !! j = Some e -> key e = Some q -> new' !! j = Some e) /\
  (forall i e q, i ∈ todo -> old !! i = Some e -> key e = Some q ->
     exists b, h !! q = Some b /\
               new' !! Z.to_nat (home (contents b) (2 * 2 ^ n)) = Some e) /\
  (count (is_live h) new' <= count (is_live h) new + count (live_at h old) todo)%nat.
Proof using Hn Hold.
  induction todo as [|i todo IH]; intros new new' Hnd Hlen Hnew Horigin Hrun.
  - simpl in Hrun. injection Hrun as <-.
    repeat split; auto.
    + intros i e q Hi. inversion Hi.
    + simpl. lia.
  - simpl in Hrun. inv_bind Hrun. rename a into entry.
    apply slot_Ret in Hrun0. rewrite Nat2Z.id in Hrun0.
    apply NoDup_cons in Hnd as [Hi_notin Hnd].
    destruct (key entry) as [p|] eqn:Hp.
    + inv_bind Hrun. rename a into r.
      destruct (ht_set_entry_rehash_key _ _ _ _ _ _ _ Hrun1) as [s Hl].
      destruct (rehash_target_vacant todo new i entry p s Hlen Hnew Horigin Hrun0 Hp Hl)
        as (e0 & He0 & Hk0).
      rewrite (ht_set_entry_rehash_vacant _ _ _ _ _ _ _ _ _ Hl He0 Hk0 Hrun1) in Hrun.
      assert (Hentry : {| key := Some p; value := value entry |} = entry).
      { destruct entry; simpl in *; congruence. }
      rewrite Hentry in Hrun.
      set (idx := Z.to_nat (home s (2 * 2 ^ n))) in *.
      destruct (Hold _ _ _ Hrun0 Hp) as (b & Hb & _ & Hh).
      pose proof Hl as Hl'. apply load_Ret in Hl' as (b' & Hb' & Hlive & Hc).
      assert (b' = b) by congruence. subst b'.
      assert (Hidx : (idx < List.length new)%nat) by (eapply lookup_lt_Some, He0).
      destruct (IH (<[ idx := entry ]> new) new' Hnd) as (L & Hm & Hkeep & Hmoved & Hcount);
        [rewrite length_insert; exact Hlen | | | exact Hrun |].
      * rewrite <- Hentry. apply (homed_insert h new (2 * 2 ^ n) idx p b); auto.
        rewrite Hc. unfold idx. pose proof (home_nonneg s (2 * 2 ^ n)). lia.
      * intros j e q Hj Hq. destruct (decide (idx = j)) as [<-|Hne].
        -- rewrite list_lookup_insert_eq in Hj by exact Hidx.
           injection Hj as <-. eauto.
        -- rewrite list_lookup_insert_ne in Hj by exact Hne.
           destruct (Horigin _ _ _ Hj Hq) as (i0 & Hnotin & Hi0).
           exists i0. split; [|exact Hi0].
           intros Hin. apply Hnotin. by right.
      * split; [exact L|]. split; [exact Hm|]. split; [|split].
        -- intros j e q Hj Hq. apply (Hkeep j e q); [|exact Hq].
           rewrite list_lookup_insert_ne; [exact Hj|].
           intros <-. congruence.
        -- intros i' e q Hin Hi' Hq. apply elem_of_cons in Hin as [->|Hin].
           ++ assert (e = entry) by congruence. subst e.
              assert (q = p) by congruence. subst q.
              exists b. split; [exact Hb|]. rewrite Hc.
              apply (Hkeep idx entry p); [|exact Hp].
              apply list_lookup_insert_eq. exact Hidx.
           ++ eapply Hmoved; eauto.
        -- pose proof (count_insert_le (is_live h) new idx entry).
           cbn [count]. unfold live_at at 1. rewrite Hrun0.
           unfold is_live at 3. rewrite Hp, Hb, Hlive. lia.
    + destruct (IH new new' Hnd Hlen Hnew) as (L & Hm & Hkeep & Hmoved & Hcount);
        [|exact Hrun|].
      * intros j e q Hj Hq. destruct (Horigin _ _ _ Hj Hq) as (i0 & Hnotin & Hi0).
        exists i0. split; [|exact Hi0]. intros Hin. apply Hnotin. by right.
      * split; [exact L|]. split; [exact Hm|]. split; [exact Hkeep|]. split.
        -- intros i' e q Hin Hi' Hq. apply elem_of_cons in Hin as [->|Hin].
           ++ congruence.
           ++ eapply Hmoved; eauto.
        -- cbn [count]. lia.
Qed.
End Expand.

(** What a successful [ht_expand] does to a table satisfying the
    invariants. *)
Lemma ht_expand_spec fuel calloc_ok t h t' :
  ht_inv t h ->
  ht_expand fuel calloc_ok t h = Ret (true, t') ->
  capacity t' = 2 * capacity t /\
  length t' = length t /\
  pow2_cap (capacity t') /\
  Z.of_nat (List.length (entries t')) = capacity t' /\
  homed h (entries t') (capacity t') /\
  (forall i e q, entries t !! i = Some e -> key e = Some q ->
     exists b, h !! q = Some b /\
               entries t' !! Z.to_nat (home (contents b) (capacity t')) = Some e) /\
  (count (is_live h) (entries t') <= count (is_live h) (entries t))%nat.
Proof.
  intros [(n & Hn & Hcap) Hlen Hload Hhome Hlive]. unfold ht_expand.
  rewrite Hcap in *.
  assert (0 < 2 ^ n) by (apply Z.pow_pos_nonneg; lia).
  destruct (wrap (2 ^ n * 2) <? 2 ^ n) eqn:Hov; [discriminate|].
  apply Z.ltb_ge in Hov.
  assert (Hn' : n <= 62).
  { destruct (Z.eq_dec n 63) as [->|]; [|lia].
    exfalso. revert Hov. vm_compute. intros Hc. apply Hc. reflexivity. }
  assert (Hw : wrap (2 ^ n * 2) = 2 * 2 ^ n).
  { assert (2 ^ n <= 2 ^ 62) by (apply Z.pow_le_mono_r; lia).
    rewrite wrap_small by lia. lia. }
  rewrite Hw.
  destruct calloc_ok; simpl; [|discriminate].
  intros Hx. inv_bind Hx. injection Hx as <-. simpl.
  destruct (expand_loop_spec fuel h (entries t) n ltac:(lia) Hhome
              (seq 0 (Z.to_nat (2 ^ n))) (calloc (2 * 2 ^ n)) a)
    as (L & Hm & _ & Hmoved & Hcount).
  - apply NoDup_seq.
  - unfold calloc. rewrite length_replicate. lia.
  - apply homed_calloc.
  - intros j e q Hj Hq. unfold calloc in Hj.
    apply lookup_replicate in Hj as [-> _]. discriminate.
  - exact Hrun.
  - repeat split; try assumption.
    + exists (n + 1). split; [lia|]. rewrite Z.pow_add_r by lia. lia.
    + intros i e q Hi Hq. apply (Hmoved i e q); [|exact Hi|exact Hq].
      apply elem_of_seq. apply lookup_lt_Some in Hi. lia.
    + assert (Hz : count (is_live h) (calloc (2 * 2 ^ n)) = O).
      { unfold calloc. induction (Z.to_nat (2 * 2 ^ n)); simpl; auto. }
      rewrite Hz in Hcount.
      replace (Z.to_nat (2 ^ n)) with (List.length (entries t)) in Hcount by lia.
      rewrite count_live_at in Hcount. lia.
Qed.

(** A failed [ht_expand] hands the table back as it was. *)
Lemma ht_expand_failed fuel calloc_ok t h t' :
  ht_expand fuel calloc_ok t h = Ret (false, t') -> t' = t.
Proof.
  unfold ht_expand.
  destruct (_ <? _); [congruence|].
  destruct calloc_ok; simpl; [|congruence].
  intros H. inv_bind H. discriminate.
Qed.

(** The table the probe phase of [ht_set] starts from. *)
Lemma grow_if_needed_spec fuel calloc_ok t h t' :
  ht_inv t h ->
  grow_if_needed fuel calloc_ok t h = Ret (Some t') ->
  ht_inv t' h /\ length t' + 1 <= capacity t' / 2 /\ length t' = length t /\
  (capacity t' = capacity t \/ capacity t' = 2 * capacity t) /\
  (forall i e q, entries t !! i = Some e -> key e = Some q ->
     exists b, h !! q = Some b /\
               entries t' !! Z.to_nat (home (contents b) (capacity t')) = Some e).
Proof.
  intros Hinv. unfold grow_if_needed.
  pose proof (pow2_cap_range _ (inv_cap _ _ Hinv)) as Hr.
  pose proof (inv_load _ _ Hinv) as Hload.
  destruct (capacity t / 2 <=? length t) eqn:Hfull.
  - intros H. inv_bind H. destruct a as [ok t1].
    destruct ok; [|discriminate]. injection H as ->.
    destruct (ht_expand_spec _ _ _ _ _ Hinv Hrun)
      as (Hc & Hl & Hp & Hlen & Hh & Hmoved & Hcount).
    assert (capacity t' / 2 = capacity t) as Hhalf by dlia.
    split; [|repeat split; auto; dlia].
    constructor; auto; try dlia.
    pose proof (inv_live _ _ Hinv). lia.
  - apply Z.leb_gt in Hfull. intros [= <-].
    split; [exact Hinv|]. repeat split; auto; try dlia.
    intros i e q Hi Hq.
    destruct (inv_home _ _ Hinv _ _ _ Hi Hq) as (b & Hb & _ & Hh).
    exists b. split; [exact Hb|]. rewrite Hh, Nat2Z.id. exact Hi.
Qed.

(** ** [ht_set] and [ht_remove], case by case *)

Lemma ht_set_cases fuel ndebug calloc_ok strdup_res t h k v r t' h' :
  ht_set fuel ndebug calloc_ok strdup_res t h k v = Ret (r, t', h') ->
  (r = -1 /\ t' = t /\ h' = h) \/
  (exists t1 sr,
     v <> 0 /\
     grow_if_needed fuel calloc_ok t h = Ret (Some t1) /\
     ht_set_entry fuel h (entries t1) (capacity t1)
       (Insert k (length t1) strdup_res) v = Ret sr /\
     r = match sr_ret sr with Some _ => 0 | None => -1 end /\
     t' = {| entries := sr_entries sr; capacity := capacity t1;
             length := default (length t1) (sr_length sr) |} /\
     h' = sr_heap sr).
Proof.
  unfold ht_set. destruct (v =? 0) eqn:Hv.
  - destruct ndebug; [|discriminate]. intros [= <- <- <-]. left. auto.
  - apply Z.eqb_neq in Hv. intros H. inv_bind H.
    destruct a as [t1|].
    + inv_bind H. injection H as <- <- <-. right. exists t1, a.
      repeat split; auto.
    + injection H as <- <- <-. left. auto.
Qed.

Lemma remove_loop_cases fuel t h k index : forall r t' h',
  remove_loop fuel t h k index = Ret (r, t', h') ->
  (r = -1 /\ t' = t /\ h' = h) \/
  (r = 0 /\ exists e p b,
     entries t !! Z.to_nat index = Some e /\ key e = Some p /\
     h !! p = Some b /\ live b = true /\ strcmp_eq k (contents b) = true /\
     t' = {| entries := entries t; capacity := capacity t;
             length := wrap (length t - 1) |} /\
     h' = <[ p := {| contents := EmptyString; live := false |} ]> h).
Proof.
  induction fuel as [|fuel IH]; intros r t' h'; simpl; [discriminate|].
  intros H. inv_bind H. apply slot_Ret in Hrun. rename a into e.
  destruct (key e) as [p|] eqn:Hk.
  - inv_bind H. rename a into s.
    destruct (strcmp_eq k s) eqn:Hs.
    + inv_bind H. injection H as <- <- <-.
      apply free_Ret in Hrun1 as (b & Hb & Hlive & ->).
      apply load_Ret in Hrun0 as (b' & Hb' & _ & Hc).
      assert (b' = b) by congruence. subst b'. subst s.
      right. split; [reflexivity|]. exists e, p, b. auto 10.
    + apply IH, H.
  - injection H as <- <- <-. left. auto.
Qed.

Lemma ht_remove_cases fuel t h k r t' h' :
  ht_remove fuel t h k = Ret (r, t', h') ->
  (r = -1 /\ t' = t /\ h' = h) \/
  (r = 0 /\ exists e p b,
     entries t !! Z.to_nat (home k (capacity t)) = Some e /\ key e = Some p /\
     h !! p = Some b /\ live b = true /\ strcmp_eq k (contents b) = true /\
     t' = {| entries := entries t; capacity := capacity t;
             length := wrap (length t - 1) |} /\
     h' = <[ p := {| contents := EmptyString; live := false |} ]> h).
Proof.
  unfold ht_remove. intros H. inv_bind H.
  destruct (key a).
  - eapply remove_loop_cases, H.
  - injection H as <- <- <-. left. auto.
Qed.

(** When the starting slot holds a live key that differs from [k], the loop
    of [ht_remove] compares against that same slot in every iteration. *)
Lemma remove_loop_spins t h k index e p s :
  slot (entries t) index = Ret e -> key e = Some p -> load h p = Ret s ->
  strcmp_eq k s = false ->
  forall fuel, remove_loop fuel t h k index = OutOfFuel.
Proof.
  intros He Hk Hl Hs fuel. induction fuel as [|fuel IH]; [reflexivity|].
  simpl. rewrite He. simpl. rewrite Hk, Hl. simpl. rewrite Hs. exact IH.
Qed.

Lemma ht_remove_spins t h k e p s :
  slot (entries t) (home k (capacity t)) = Ret e -> key e = Some p ->
  load h p = Ret s -> strcmp_eq k s = false ->
  forall fuel, ht_remove fuel t h k = OutOfFuel.
Proof.
  intros He Hk Hl Hs fuel. unfold ht_remove. rewrite He. simpl. rewrite Hk.
  eapply remove_loop_spins; eauto.
Qed.

(** ** Tables nothing was removed from: preservation of [ht_inv] *)

Lemma ht_inv_eta t h :
  ht_inv t h ->
  ht_inv {| entries := entries t; capacity := capacity t; length := length t |} h.
Proof. intros []. constructor; assumption. Qed.

Lemma insert_case_inv t h k v sr :
  ht_inv t h -> length t + 1 <= capacity t / 2 ->
  insert_case h (entries t) (capacity t) k (length t) v sr ->
  ht_inv {| entries := sr_entries sr; capacity := capacity t;
            length := default (length t) (sr_length sr) |} (sr_heap sr).
Proof.
  intros Hinv Hroom Hcase.
  pose proof (pow2_cap_range _ (inv_cap _ _ Hinv)) as Hr.
  destruct Hinv as [Hcap Hlen Hload Hhome Hlive].
  destruct Hcase as [_ -> -> ->|i e p s He Hk Hl Hs _ -> -> ->
                    |addr p h' Hdup _ -> -> ->]; simpl.
  - constructor; assumption.
  - apply load_Ret in Hl as (b & Hb & Hlb & _).
    destruct (Hhome _ _ _ He Hk) as (b' & Hb' & _ & Hh).
    assert (b' = b) by congruence. subst b'.
    constructor; simpl; auto.
    + rewrite length_insert. exact Hlen.
    + eapply homed_insert; eauto.
    + erewrite count_insert_same; [exact Hlive|exact He|].
      unfold is_live. simpl. rewrite Hk. reflexivity.
  - assert (Hw : wrap (length t + 1) = length t + 1) by (apply wrap_small; dlia).
    rewrite Hw.
    pose proof (strdup_spec _ _ _ _ _ Hdup) as (Hnew & _ & _).
    constructor; simpl; auto.
    + rewrite length_insert. exact Hlen.
    + dlia.
    + eapply homed_insert.
      * eapply homed_strdup; eauto.
      * exact Hnew.
      * reflexivity.
      * simpl. rewrite home_cstr. pose proof (home_nonneg k (capacity t)). lia.
    + pose proof (count_insert_le (is_live h') (entries t)
                    (Z.to_nat (home k (capacity t)))
                    {| key := Some p; value := v |}) as Hc.
      rewrite (count_ext _ (is_live h) (entries t)) in Hc; [lia|].
      intros x Hx. eapply is_live_strdup; eauto.
Qed.

Lemma ht_set_inv fuel ndebug calloc_ok strdup_res t h k v r t' h' :
  ht_inv t h ->
  ht_set fuel ndebug calloc_ok strdup_res t h k v = Ret (r, t', h') ->
  ht_inv t' h'.
Proof.
  intros Hinv H.
  apply ht_set_cases in H as [(_ & -> & ->)|(t1 & sr & _ & Hg & He & _ & -> & ->)];
    [exact Hinv|].
  destruct (grow_if_needed_spec _ _ _ _ _ Hinv Hg) as (Hinv1 & Hroom & _).
  apply ht_set_entry_insert in He as [_ Hcase].
  apply (insert_case_inv t1 h k v); assumption.
Qed.

Lemma ht_create_inv malloc_ok calloc_ok mutex_ok t h :
  ht_create malloc_ok calloc_ok mutex_ok = Some t -> ht_inv t h.
Proof.
  unfold ht_create.
  destruct malloc_ok, calloc_ok, mutex_ok; simpl; try discriminate.
  intros [= <-]. constructor; simpl.
  - exists 4. split; [lia|reflexivity].
  - reflexivity.
  - vm_compute. split; discriminate.
  - apply homed_calloc.
  - vm_compute. discriminate.
Qed.

Lemma reachable_by_set_inv s : reachable_by_set s -> ht_inv s.1 s.2.
Proof.
  induction 1 as [mo co mu t h H|fuel nd co sr t h k v r t' h' _ IH H]; simpl in *.
  - eapply ht_create_inv, H.
  - eapply ht_set_inv; eauto.
Qed.

Lemma reachable_by_set_reachable s : reachable_by_set s -> reachable s.
Proof.
  induction 1 as [mo co mu t h H|fuel nd co sr t h k v r t' h' _ IH H].
  - eapply reach_create, H.
  - eapply reach_step; [exact IH|]. eapply step_set, H.
Qed.

(** ** Every reachable table: preservation of [ht_wf] *)

(** What a re-insertion writes: the array keeps its size, and a slot that
    changed holds the value given under the key pointer given or under the
    key pointer the slot held. *)
Lemma ht_set_entry_rehash_shape fuel h es cap p v r :
  ht_set_entry fuel h es cap (Rehash p) v = Ret r ->
  List.length (sr_entries r) = List.length es /\
  forall (j : nat) e q, sr_entries r !! j = Some e -> key e = Some q ->
    es !! j = Some e \/
    (value e = v /\ (q = p \/ exists e0, es !! j = Some e0 /\ key e0 = Some q)).
Proof.
  unfold ht_set_entry. simpl. intros H. inv_bind H. inv_bind H.
  assert (Hins : forall (i : nat) q0,
            (q0 = p \/ exists e0, es !! i = Some e0 /\ key e0 = Some q0) ->
            forall (j : nat) e q,
              <[ i := {| key := Some q0; value := v |} ]> es !! j = Some e ->
              key e = Some q ->
              es !! j = Some e \/
              (value e = v /\ (q = p \/ exists e0, es !! j = Some e0 /\ key e0 = Some q))).
  { intros i q0 Hq0 j e q Hj Hq. destruct (decide (i = j)) as [<-|Hne].
    - assert (Hlt : (i < List.length es)%nat).
      { apply lookup_lt_Some in Hj. rewrite length_insert in Hj. exact Hj. }
      rewrite list_lookup_insert_eq in Hj by exact Hlt.
      injection Hj as <-. simpl in Hq. injection Hq as <-. right. auto.
    - rewrite list_lookup_insert_ne in Hj by exact Hne. auto. }
  destruct a0 as [i e0|i|]; injection H as <-; simpl.
  - apply probe_Match in Hrun0 as (He0 & p0 & s0 & Hk0 & _).
    rewrite Hk0. split; [apply length_insert|].
    apply Hins. right. eauto.
  - split; [apply length_insert|]. apply Hins. auto.
  - split; [reflexivity|]. auto.
Qed.

Lemma expand_loop_shape KP VP fuel h old new_capacity : forall todo new new',
  fits KP VP old -> fits KP VP new ->
  expand_loop fuel h old todo new new_capacity = Ret new' ->
  List.length new' = List.length new /\ fits KP VP new'.
Proof.
  induction todo as [|i todo IH]; intros new new' Hold Hnew H.
  - simpl in H. injection H as <-. auto.
  - simpl in H. inv_bind H. rename a into entry.
    apply slot_Ret in Hrun. rewrite Nat2Z.id in Hrun.
    destruct (key entry) as [p|] eqn:Hp; [|eapply IH; eauto].
    inv_bind H. rename a into r.
    destruct (ht_set_entry_rehash_shape _ _ _ _ _ _ _ Hrun0) as [Hlen Hsh].
    destruct (IH (sr_entries r) new' Hold) as [Hlen' Hfit]; [|exact H|].
    + intros j e q Hj Hq.
      destruct (Hsh j e q Hj Hq) as [Hsame|(Hv & [->|(e0 & He0 & Hk0)])].
      * eapply Hnew; eauto.
      * rewrite Hv. split; [eapply Hold|eapply Hold]; eauto.
      * rewrite Hv. split; [eapply Hnew|eapply Hold]; eauto.
    + split; [congruence|exact Hfit].
Qed.

Lemma fits_calloc KP VP n : fits KP VP (calloc n).
Proof.
  intros j e q Hj Hq. unfold calloc in Hj.
  apply lookup_replicate in Hj as [-> _]. discriminate.
Qed.

(** What the first half of [ht_set] hands to the second, on any table. *)
Lemma grow_if_needed_shape KP VP fuel calloc_ok t h t' :
  fits KP VP (entries t) ->
  grow_if_needed fuel calloc_ok t h = Ret (Some t') ->
  fits KP VP (entries t') /\
  length t' = length t /\
  (capacity t / 2 <= length t ->
   capacity t' = wrap (capacity t * 2) /\ capacity t <= capacity t' /\
   List.length (entries t') = Z.to_nat (capacity t')) /\
  (length t < capacity t / 2 -> t' = t).
Proof.
  intros Hfit. unfold grow_if_needed.
  destruct (capacity t / 2 <=? length t) eqn:Hfull.
  - intros H. inv_bind H. destruct a as [ok t1].
    destruct ok; [|discriminate]. injection H as ->.
    unfold ht_expand in Hrun.
    destruct (wrap (capacity t * 2) <? capacity t) eqn:Hov; [discriminate|].
    apply Z.ltb_ge in Hov.
    destruct calloc_ok; simpl in Hrun; [|discriminate].
    inv_bind Hrun. injection Hrun as <-. simpl.
    destruct (expand_loop_shape KP VP _ _ _ _ _ _ _ Hfit (fits_calloc KP VP _) Hrun0)
      as [Hlen Hf].
    apply Z.leb_le in Hfull.
    split; [exact Hf|]. split; [reflexivity|]. split; [|lia].
    intros _. split; [reflexivity|]. split; [exact Hov|].
    rewrite Hlen. unfold calloc. apply length_replicate.
  - apply Z.leb_gt in Hfull. intros [= <-].
    split; [exact Hfit|]. split; [reflexivity|]. split; [lia|auto].
Qed.

Lemma wrap_double_pow2 n :
  4 <= n <= 63 -> 2 ^ n <= wrap (2 ^ n * 2) ->
  n <= 62 /\ wrap (2 ^ n * 2) = 2 * 2 ^ n.
Proof.
  intros Hn Hov.
  assert (Hn' : n <= 62).
  { destruct (Z.eq_dec n 63) as [->|]; [|lia].
    exfalso. revert Hov. vm_compute. intros Hc. apply Hc. reflexivity. }
  split; [exact Hn'|].
  assert (0 < 2 ^ n) by (apply Z.pow_pos_nonneg; lia).
  assert (2 ^ n <= 2 ^ 62) by (apply Z.pow_le_mono_r; lia).
  rewrite wrap_small by lia. lia.
Qed.

Lemma grow_if_needed_wf fuel calloc_ok t h t1 :
  ht_wf t h ->
  grow_if_needed fuel calloc_ok t h = Ret (Some t1) ->
  ht_wf t1 h /\ length t1 + 1 <= capacity t1 / 2 /\ length t1 = length t /\
  (capacity t1 = capacity t \/ capacity t1 = 2 * capacity t).
Proof.
  intros Hwf Hg.
  pose proof (pow2_cap_range _ (wf_cap _ _ Hwf)) as Hr.
  pose proof (wf_load _ _ Hwf) as Hload.
  destruct (wf_own _ _ Hwf) as (owned & Hnd & Hown & Hslots & Hcount).
  assert (Hfit0 : fits (fun q => forall b, h !! q = Some b -> live b = true -> q ∈ owned)
                        (fun _ => True) (entries t)).
  { intros j e q Hj Hq. split; [|trivial]. intros b Hb Hl. eapply Hslots; eauto. }
  destruct (grow_if_needed_shape _ _ _ _ _ _ _ Hfit0 Hg)
    as (Hfit & Hlen & Hfull & Hsame).
  destruct (Z_le_gt_dec (capacity t / 2) (length t)) as [Hge|Hlt].
  - destruct (Hfull Hge) as (Hc & Hle & Hl).
    destruct (wf_cap _ _ Hwf) as (n & Hn & Hcap). rewrite Hcap in Hc, Hle.
    rewrite Hc in Hle.
    destruct (wrap_double_pow2 n Hn Hle) as [Hn' Hw]. rewrite Hw in Hc.
    assert (Hpos : 0 < 2 ^ n) by (apply Z.pow_pos_nonneg; lia).
    split; [|rewrite Hc, Hlen, Hcap in *; repeat split; try dlia; right; lia].
    constructor.
    + exists (n + 1). split; [lia|]. rewrite Z.pow_add_r by lia. lia.
    + rewrite Hl, Hc. lia.
    + rewrite Hc, Hlen, Hcap in *. dlia.
    + exists owned. split; [exact Hnd|]. split; [exact Hown|]. split; [|lia].
      intros i e p b Hi Hk Hb Hlb. destruct (Hfit i e p Hi Hk) as [Hkp _].
      eapply Hkp; eauto.
  - rewrite (Hsame ltac:(lia)) in *.
    split; [exact Hwf|]. repeat split; auto; dlia.
Qed.

Lemma insert_case_wf t h k v sr :
  ht_wf t h -> length t + 1 <= capacity t / 2 ->
  insert_case h (entries t) (capacity t) k (length t) v sr ->
  ht_wf {| entries := sr_entries sr; capacity := capacity t;
           length := default (length t) (sr_length sr) |} (sr_heap sr).
Proof.
  intros Hwf Hroom Hcase.
  pose proof (pow2_cap_range _ (wf_cap _ _ Hwf)) as Hr.
  destruct Hwf as [Hcap Hlen Hload (owned & Hnd & Hown & Hslots & Hcount)].
  destruct Hcase as [_ -> -> ->|i e p s He Hk Hl Hs _ -> -> ->
                    |addr p h' Hdup _ -> -> ->]; simpl.
  - constructor; simpl; eauto 10.
  - constructor; simpl; auto.
    + rewrite length_insert. exact Hlen.
    + exists owned. split; [exact Hnd|]. split; [exact Hown|]. split; [|exact Hcount].
      intros j e' q b Hj Hq Hb Hlb.
      destruct (decide (Z.to_nat i = j)) as [<-|Hne].
      * rewrite list_lookup_insert_eq in Hj by (eapply lookup_lt_Some, He).
        injection Hj as <-. simpl in Hq. injection Hq as <-.
        eapply Hslots; eauto.
      * rewrite list_lookup_insert_ne in Hj by exact Hne. eapply Hslots; eauto.
  - assert (Hw : wrap (length t + 1) = length t + 1) by (apply wrap_small; dlia).
    rewrite Hw.
    pose proof (strdup_spec _ _ _ _ _ Hdup) as (Hnew & Hfree & Hsame).
    assert (Hnotin : p ∉ owned).
    { intros Hin. destruct (Hown _ Hin) as (b & Hb & Hlb).
      specialize (Hfree _ Hb). congruence. }
    constructor; simpl; auto.
    + rewrite length_insert. exact Hlen.
    + dlia.
    + exists (p :: owned). split; [|split; [|split]].
      * apply NoDup_cons. auto.
      * intros q Hq. apply elem_of_cons in Hq as [->|Hq]; [eauto|].
        destruct (Hown _ Hq) as (b & Hb & Hlb). exists b. split; [|exact Hlb].
        rewrite Hsame; [exact Hb|]. intros ->. contradiction.
      * intros j e' q b Hj Hq Hb Hlb.
        destruct (decide (q = p)) as [->|Hqp]; [left|right].
        rewrite Hsame in Hb by exact Hqp.
        destruct (decide (Z.to_nat (home k (capacity t)) = j)) as [<-|Hne].
        -- assert (Hlt : (Z.to_nat (home k (capacity t)) < List.length (entries t))%nat).
           { apply lookup_lt_Some in Hj. rewrite length_insert in Hj. exact Hj. }
           rewrite list_lookup_insert_eq in Hj by exact Hlt.
           injection Hj as <-. simpl in Hq. congruence.
        -- rewrite list_lookup_insert_ne in Hj by exact Hne. eapply Hslots; eauto.
      * simpl. lia.
Qed.

Lemma ht_set_wf fuel ndebug calloc_ok strdup_res t h k v r t' h' :
  ht_wf t h ->
  ht_set fuel ndebug calloc_ok strdup_res t h k v = Ret (r, t', h') ->
  ht_wf t' h'.
Proof.
  intros Hwf H.
  apply ht_set_cases in H as [(_ & -> & ->)|(t1 & sr & _ & Hg & He & _ & -> & ->)];
    [exact Hwf|].
  destruct (grow_if_needed_wf _ _ _ _ _ Hwf Hg) as (Hwf1 & Hroom & _).
  apply ht_set_entry_insert in He as [_ Hcase].
  apply (insert_case_wf t1 h k v); assumption.
Qed.

Lemma ht_remove_wf fuel t h k r t' h' :
  ht_wf t h -> ht_remove fuel t h k = Ret (r, t', h') ->
  ht_wf t' h' /\ (r = 0 -> length t' = length t - 1).
Proof.
  intros Hwf H.
  apply ht_remove_cases in H
    as [(-> & -> & ->)|(-> & e & p & b & He & Hk & Hb & Hlive & Hs & -> & ->)].
  - split; [exact Hwf|discriminate].
  - pose proof (pow2_cap_range _ (wf_cap _ _ Hwf)) as Hr.
    destruct Hwf as [Hcap Hlen Hload (owned & Hnd & Hown & Hslots & Hcount)].
    assert (Hin : p ∈ owned) by (eapply Hslots; eauto).
    apply list_elem_of_split in Hin as (l1 & l2 & ->).
    apply NoDup_app in Hnd as (Hnd1 & Hdisj & Hnd2).
    apply NoDup_cons in Hnd2 as (Hp2 & Hnd2).
    assert (Hp1 : p ∉ l1).
    { intros Hin. apply (Hdisj _ Hin). left. }
    rewrite length_app in Hcount. simpl in Hcount.
    assert (Hlt : (p < List.length h)%nat) by (eapply lookup_lt_Some, Hb).
    assert (Hw : wrap (length t - 1) = length t - 1) by (apply wrap_small; dlia).
    simpl. rewrite Hw. split; [|reflexivity].
    constructor; simpl; auto.
    + dlia.
    + exists (l1 ++ l2). split; [|split; [|split]].
      * apply NoDup_app. split; [exact Hnd1|]. split; [|exact Hnd2].
        intros x Hx1 Hx2. apply (Hdisj _ Hx1). by right.
      * intros q Hq.
        assert (Hqp : q <> p).
        { intros ->. apply elem_of_app in Hq as [?|?]; contradiction. }
        destruct (Hown q) as (b' & Hb' & Hlb').
        { apply elem_of_app in Hq as [?|?]; apply elem_of_app; [left|right; right];
            assumption. }
        exists b'. split; [|exact Hlb'].
        rewrite list_lookup_insert_ne by congruence. exact Hb'.
      * intros j e' q b' Hj Hq Hb' Hlb'.
        assert (Hqp : q <> p).
        { intros ->. rewrite list_lookup_insert_eq in Hb' by exact Hlt.
          injection Hb' as <-. discriminate. }
        rewrite list_lookup_insert_ne in Hb' by congruence.
        pose proof (Hslots _ _ _ _ Hj Hq Hb' Hlb') as Hin.
        apply elem_of_app in Hin as [Hin|Hin]; [apply elem_of_app; by left|].
        apply elem_of_cons in Hin as [->|Hin]; [contradiction|].
        apply elem_of_app. by right.
      * rewrite length_app. lia.
Qed.

Lemma ht_create_wf malloc_ok calloc_ok mutex_ok t h :
  ht_create malloc_ok calloc_ok mutex_ok = Some t -> ht_wf t h.
Proof.
  unfold ht_create.
  destruct malloc_ok, calloc_ok, mutex_ok; simpl; try discriminate.
  intros [= <-]. constructor; simpl.
  - exists 4. split; [lia|reflexivity].
  - reflexivity.
  - vm_compute. split; discriminate.
  - exists []. split; [apply NoDup_nil_2|]. split; [|split].
    + intros p Hp. inversion Hp.
    + intros i e p b Hi. unfold calloc in Hi.
      apply lookup_replicate in Hi as [-> _]. discriminate.
    + simpl. lia.
Qed.

Lemma step_wf s s' : step s s' -> ht_wf s.1 s.2 -> ht_wf s'.1 s'.2.
Proof.
  intros [fuel nd co so t h k v r t' h' H|fuel t h k r t' h' H] Hwf; simpl in *.
  - eapply ht_set_wf; eauto.
  - eapply ht_remove_wf; eauto.
Qed.

Lemma reachable_wf s : reachable s -> ht_wf s.1 s.2.
Proof.
  induction 1 as [mo co mu t h H|s s' _ IH Hstep].
  - eapply ht_create_wf, H.
  - eapply step_wf; eauto.
Qed.

Lemma run_reachable fuel ops : forall s rs s',
  reachable s -> run fuel ops s = Ret (rs, s') -> reachable s'.
Proof.
  induction ops as [|o ops IH]; intros s rs s' Hs; simpl.
  - intros [= _ <-]. exact Hs.
  - intros H. inv_bind H. destruct a as [[r t] h].
    inv_bind H. destruct a as [rs' s1]. injection H as _ <-.
    apply (IH (t, h) rs'); [|exact Hrun0].
    apply (reach_step s); [exact Hs|].
    destruct s as [t0 h0]. destruct o as [k v|k|k v addr]; simpl in Hrun.
    + eapply step_set, Hrun.
    + eapply step_remove, Hrun.
    + eapply step_set, Hrun.
Qed.

Lemma reachable_fresh h : reachable (fresh, h).
Proof. apply (reach_create true true true). reflexivity. Qed.

Lemma reachable_after ops : reachable (after ops).
Proof.
  unfold after. destruct (run 64 ops (fresh, [])) as [[rs s]| |] eqn:E.
  - eapply run_reachable; [apply reachable_fresh|exact E].
  - apply reachable_fresh.
  - apply reachable_fresh.
Qed.

Lemma run_reachable_by_set fuel ops : forall s rs s',
  forallb is_set ops = true ->
  reachable_by_set s -> run fuel ops s = Ret (rs, s') -> reachable_by_set s'.
Proof.
  induction ops as [|o ops IH]; intros s rs s' Hops Hs; simpl.
  - intros [= _ <-]. exact Hs.
  - simpl in Hops. apply andb_prop in Hops as [Ho Hops].
    intros H. inv_bind H. destruct a as [[r t] h].
    inv_bind H. destruct a as [rs' s1]. injection H as _ <-.
    apply (IH (t, h) rs' _ Hops); [|exact Hrun0].
    destruct s as [t0 h0]. destruct o as [k v|k|k v addr]; simpl in Hrun.
    + eapply set_step; eauto.
    + discriminate.
    + eapply set_step; eauto.
Qed.

Lemma reachable_by_set_after ops :
  forallb is_set ops = true -> reachable_by_set (after ops).
Proof.
  intros Hops. unfold after.
  assert (Hf : reachable_by_set (fresh, []))
    by (apply (set_create true true true); reflexivity).
  destruct (run 64 ops (fresh, [])) as [[rs s]| |] eqn:E; auto.
  eapply run_reachable_by_set; eauto.
Qed.

(** ** Looking up a key that sits in its home slot *)

Lemma ht_get_present fuel k v t h :
  present k v t h -> ht_get (S fuel) t h k = Ret v.
Proof.
  intros (e & p & b & He & Hk & Hv & Hb & Hlive & Hs).
  unfold ht_get.
  erewrite probe_first_match; eauto.
  - simpl. rewrite Hv. reflexivity.
  - apply load_Ret. eauto.
Qed.

Lemma ht_set_entry_present fuel h es cap k len strdup_res v e p b sr :
  es !! Z.to_nat (home k cap) = Some e -> key e = Some p ->
  h !! p = Some b -> live b = true -> strcmp_eq k (contents b) = true ->
  ht_set_entry fuel h es cap (Insert k len strdup_res) v = Ret sr ->
  sr_ret sr = Some p /\ sr_length sr = Some len /\ sr_heap sr = h /\
  sr_entries sr = <[ Z.to_nat (home k cap) := {| key := Some p; value := v |} ]> es.
Proof.
  intros He Hk Hb Hlive Hs. unfold ht_set_entry. simpl.
  destruct fuel as [|fuel]; [discriminate|].
  erewrite probe_first_match; eauto; [|apply load_Ret; eauto].
  simpl. intros [= <-]. simpl. rewrite Hk. auto.
Qed.

(** On a table nothing was removed from, a successful [ht_set] leaves the
    key, live, in its home slot with the value given. *)
Lemma ht_set_present fuel ndebug calloc_ok strdup_res t h k v t' h' :
  ht_inv t h ->
  ht_set fuel ndebug calloc_ok strdup_res t h k v = Ret (0, t', h') ->
  present k v t' h'.
Proof.
  intros Hinv H.
  apply ht_set_cases in H as [(? & _)|(t1 & sr & _ & Hg & He & Hr & -> & ->)];
    [discriminate|].
  destruct (grow_if_needed_spec _ _ _ _ _ Hinv Hg) as (Hinv1 & _).
  apply ht_set_entry_insert in He as [[e0 He0] Hcase].
  assert (Hin : (Z.to_nat (home k (capacity t1)) < List.length (entries t1))%nat)
    by (eapply lookup_lt_Some, He0).
  destruct Hcase as [Hnull _ _ _|i e p s He Hk Hl Hs _ Hes _ Hh
                    |addr p h' Hdup _ Hes _ Hh].
  - rewrite Hnull in Hr. discriminate.
  - apply load_Ret in Hl as (b & Hb & Hlive & <-).
    destruct (inv_home _ _ Hinv1 _ _ _ He Hk) as (b' & Hb' & _ & Hhome).
    assert (b' = b) by congruence. subst b'.
    rewrite <- (strcmp_eq_home _ _ _ Hs) in Hhome.
    exists {| key := Some p; value := v |}, p, b. simpl.
    rewrite Hes, Hh. rewrite Hhome, Nat2Z.id.
    repeat split; auto.
    apply list_lookup_insert_eq. eapply lookup_lt_Some, He.
  - apply strdup_spec in Hdup as (Hnew & _ & _).
    exists {| key := Some p; value := v |}, p,
      {| contents := cstr k; live := true |}. simpl.
    rewrite Hes, Hh. repeat split; auto.
    + apply list_lookup_insert_eq. exact Hin.
    + apply strcmp_eq_cstr.
Qed.

(** On a table nothing was removed from, [ht_set] on a key that is present
    overwrites its value and leaves the length alone, whether or not the
    table grows first. *)
Lemma ht_set_overwrite fuel ndebug calloc_ok strdup_res t h k v0 v t' h' :
  ht_inv t h -> present k v0 t h ->
  ht_set fuel ndebug calloc_ok strdup_res t h k v = Ret (0, t', h') ->
  length t' = length t.
Proof.
  intros Hinv (e & p & b & He & Hk & _ & Hb & Hlive & Hs) H.
  apply ht_set_cases in H as [(? & _)|(t1 & sr & _ & Hg & Hse & _ & -> & _)];
    [discriminate|].
  destruct (grow_if_needed_spec _ _ _ _ _ Hinv Hg) as (_ & _ & Hlen & _ & Hmoved).
  destruct (Hmoved _ _ _ He Hk) as (b' & Hb' & He1).
  assert (b' = b) by congruence. subst b'.
  rewrite <- (strcmp_eq_home _ _ _ Hs) in He1.
  destruct (ht_set_entry_present _ _ _ _ _ _ _ _ _ _ _ _ He1 Hk Hb Hlive Hs Hse)
    as (_ & Hl & _).
  simpl. rewrite Hl. exact Hlen.
Qed.

Lemma ht_expand_length fuel calloc_ok t h ok t' :
  ht_expand fuel calloc_ok t h = Ret (ok, t') -> length t' = length t.
Proof.
  unfold ht_expand. destruct (_ <? _); [congruence|].
  destruct calloc_ok; simpl; [|congruence].
  intros H. inv_bind H. injection H as _ <-. reflexivity.
Qed.

Lemma wrap_succ_neq len : wrap (len + 1) <> len.
Proof.
  unfold wrap. change (2 ^ 64) with 18446744073709551616. dlia.
Qed.

(** ** Growth of a table nothing was removed from *)

Section Rehash.
Variables (h : heap) (old : list ht_entry) (n : Z).
Hypothesis Hn : 0 <= n <= 62.
Hypothesis Hold : homed h old (2 ^ n).

(** One round of the loop of [ht_expand] on an occupied slot [i] of the old
    array: the re-insertion returns after one look at the new array, having
    put the old entry, as it is, into a slot that was empty. *)
Lemma rehash_step fuel todo new (i : nat) entry p :
  Z.of_nat (List.length new) = 2 * 2 ^ n ->
  homed h new (2 * 2 ^ n) ->
  (forall j e q, new !! j = Some e -> key e = Some q ->
                 exists i0, (i0 ∉ i :: todo) /\ old !! i0 = Some e) ->
  i ∉ todo -> old !! i = Some entry -> key entry = Some p ->
  exists (idx : nat) r,
    ht_set_entry (S fuel) h new (2 * 2 ^ n) (Rehash p) (value entry) = Ret r /\
    sr_entries r = <[ idx := entry ]> new /\
    (exists e0, new !! idx = Some e0 /\ key e0 = None) /\
    (exists b, h !! p = Some b /\ Z.to_nat (home (contents b) (2 * 2 ^ n)) = idx) /\
    homed h (<[ idx := entry ]> new) (2 * 2 ^ n) /\
    (forall j e q, <[ idx := entry ]> new !! j = Some e -> key e = Some q ->
                   exists i0, (i0 ∉ todo) /\ old !! i0 = Some e).
Proof using Hn Hold.
  intros Hlen Hnew Horigin Hnotin Hi Hp.
  destruct (Hold _ _ _ Hi Hp) as (b & Hb & Hlive & Hh).
  assert (Hl : load h p = Ret (contents b)) by (apply load_Ret; eauto).
  destruct (rehash_target_vacant h old n Hn Hold todo new i entry p (contents b)
              Hlen Hnew Horigin Hi Hp Hl) as (e0 & He0 & Hk0).
  set (idx := Z.to_nat (home (contents b) (2 * 2 ^ n))) in *.
  assert (Hentry : {| key := Some p; value := value entry |} = entry).
  { destruct entry; simpl in *; congruence. }
  assert (Hidx : (idx < List.length new)%nat) by (eapply lookup_lt_Some, He0).
  exists idx. eexists. split; [|split; [|split; [|split; [|split]]]].
  - unfold ht_set_entry. cbn [mode_key]. rewrite Hl. cbn [mbind outcome_bind].
    rewrite (probe_first_vacant _ _ _ _ _ _ _ _ He0 Hk0). cbn [mbind outcome_bind].
    reflexivity.
  - cbn [sr_entries]. fold idx. rewrite Hentry. reflexivity.
  - eauto.
  - eauto.
  - rewrite <- Hentry. apply (homed_insert h new (2 * 2 ^ n) idx p b); auto.
    unfold idx. pose proof (home_nonneg (contents b) (2 * 2 ^ n)). lia.
  - intros j e q Hj Hq. destruct (decide (idx = j)) as [<-|Hne].
    + rewrite list_lookup_insert_eq in Hj by exact Hidx.
      injection Hj as <-. exists i. split; [exact Hnotin|exact Hi].
    + rewrite list_lookup_insert_ne in Hj by exact Hne.
      destruct (Horigin _ _ _ Hj Hq) as (i0 & Hnotin0 & Hi0).
      exists i0. split; [|exact Hi0].
      intros Hin. apply Hnotin0. by right.
Qed.

(** The loop of [ht_expand] returns: one look at the new array is enough
    for each re-insertion. *)
Lemma expand_loop_returns fuel : forall todo new,
  (forall i, i ∈ todo -> (i < List.length old)%nat) ->
  NoDup todo ->
  Z.of_nat (List.length new) = 2 * 2 ^ n ->
  homed h new (2 * 2 ^ n) ->
  (forall j e q, new !! j = Some e -> key e = Some q ->
                 exists i0, (i0 ∉ todo) /\ old !! i0 = Some e) ->
  exists new', expand_loop (S fuel) h old todo new (2 * 2 ^ n) = Ret new'.
Proof using Hn Hold.
  induction todo as [|i todo IH]; intros new Hin Hnd Hlen Hnew Horigin.
  - exists new. reflexivity.
  - apply NoDup_cons in Hnd as [Hnotin Hnd].
    destruct (lookup_lt_is_Some_2 old i) as [entry Hi]; [apply Hin; left|].
    assert (Hs : slot old (Z.of_nat i) = Ret entry)
      by (apply slot_Ret; rewrite Nat2Z.id; exact Hi).
    assert (Hrest : forall i0, i0 ∈ todo -> (i0 < List.length old)%nat)
      by (intros i0 Hi0; apply Hin; by right).
    cbn [expand_loop]. rewrite Hs. cbn [mbind outcome_bind].
    destruct (key entry) as [p|] eqn:Hp.
    + destruct (rehash_step fuel todo new i entry p Hlen Hnew Horigin Hnotin Hi Hp)
        as (idx & r & Hr & Hes & _ & _ & Hnew' & Horigin').
      rewrite Hr. cbn [mbind outcome_bind]. rewrite Hes.
      apply IH; auto. rewrite length_insert. exact Hlen.
    + apply IH; auto.
      intros j e q Hj Hq. destruct (Horigin _ _ _ Hj Hq) as (i0 & Hnotin0 & Hi0).
      exists i0. split; [|exact Hi0]. intros Hin0. apply Hnotin0. by right.
Qed.

(** Every entry of the new array was taken from the old one. *)
Lemma expand_loop_origin fuel : forall todo new new',
  NoDup todo ->
  Z.of_nat (List.length new) = 2 * 2 ^ n ->
  homed h new (2 * 2 ^ n) ->
  (forall j e q, new !! j = Some e -> key e = Some q ->
                 exists i0, (i0 ∉ todo) /\ old !! i0 = Some e) ->
  expand_loop fuel h old todo new (2 * 2 ^ n) = Ret new' ->
  forall j e q, new' !! j = Some e -> key e = Some q ->
    new !! j = Some e \/ exists i, i ∈ todo /\ old !! i = Some e.
Proof using Hn Hold.
  induction todo as [|i todo IH]; intros new new' Hnd Hlen Hnew Horigin Hrun.
  - simpl in Hrun. injection Hrun as <-. auto.
  - cbn [expand_loop] in Hrun. inv_bind Hrun. rename a into entry.
    apply slot_Ret in Hrun0. rewrite Nat2Z.id in Hrun0.
    apply NoDup_cons in Hnd as [Hnotin Hnd].
    destruct (key entry) as [p|] eqn:Hp.
    + inv_bind Hrun. rename a into r.
      destruct fuel as [|fuel].
      { unfold ht_set_entry in Hrun1. inv_bind Hrun1. inv_bind Hrun1.
        discriminate. }
      destruct (rehash_step fuel todo new i entry p Hlen Hnew Horigin Hnotin Hrun0 Hp)
        as (idx & r' & Hr & Hes & (e0 & He0 & Hk0) & _ & Hnew' & Horigin').
      assert (r' = r) by congruence. subst r'. rewrite Hes in Hrun.
      assert (Hidx : (idx < List.length new)%nat) by (eapply lookup_lt_Some, He0).
      intros j e q Hj Hq.
      destruct (IH (<[ idx := entry ]> new) new' Hnd) with (j := j) (e := e) (q := q)
        as [Hin|(i' & Hin & Hi')]; auto.
      * rewrite length_insert. exact Hlen.
      * destruct (decide (idx = j)) as [<-|Hne].
        -- rewrite list_lookup_insert_eq in Hin by exact Hidx.
           injection Hin as <-. right. exists i. split; [left|exact Hrun0].
        -- rewrite list_lookup_insert_ne in Hin by exact Hne. auto.
      * right. exists i'. split; [by right|exact Hi'].
    + intros j e q Hj Hq.
      destruct (IH new new' Hnd Hlen Hnew) with (j := j) (e := e) (q := q)
        as [Hin|(i' & Hin & Hi')]; auto.
      * intros j' e' q' Hj' Hq'.
        destruct (Horigin _ _ _ Hj' Hq') as (i0 & Hnotin0 & Hi0).
        exists i0. split; [|exact Hi0]. intros Hin. apply Hnotin0. by right.
      * right. exists i'. split; [by right|exact Hi'].
Qed.
End Rehash.

Lemma ht_expand_returns fuel t h :
  ht_inv t h -> capacity t < 2 ^ 63 ->
  exists t', ht_expand (S fuel) true t h = Ret (true, t').
Proof.
  intros [(n & Hn & Hcap) Hlen Hload Hhome Hlive] Hsmall. unfold ht_expand.
  rewrite Hcap in *.
  assert (0 < 2 ^ n) by (apply Z.pow_pos_nonneg; lia).
  assert (Hn' : n <= 62).
  { destruct (Z.eq_dec n 63) as [->|]; lia. }
  assert (Hw : wrap (2 ^ n * 2) = 2 * 2 ^ n).
  { assert (2 ^ n <= 2 ^ 62) by (apply Z.pow_le_mono_r; lia).
    rewrite wrap_small by lia. lia. }
  rewrite Hw.
  assert (Hov : (2 * 2 ^ n <? 2 ^ n) = false) by (apply Z.ltb_ge; lia).
  rewrite Hov. cbn [negb].
  destruct (expand_loop_returns h (entries t) n ltac:(lia) Hhome fuel
              (seq 0 (Z.to_nat (2 ^ n))) (calloc (2 * 2 ^ n))) as [new' Hrun].
  - intros i Hi. apply elem_of_seq in Hi. lia.
  - apply NoDup_seq.
  - unfold calloc. rewrite length_replicate. lia.
  - apply homed_calloc.
  - intros j e q Hj Hq. unfold calloc in Hj.
    apply lookup_replicate in Hj as [-> _]. discriminate.
  - rewrite Hrun. cbn [mbind outcome_bind]. eauto.
Qed.

Lemma ht_expand_origin fuel calloc_ok t h t' :
  ht_inv t h ->
  ht_expand fuel calloc_ok t h = Ret (true, t') ->
  forall j e q, entries t' !! j = Some e -> key e = Some q ->
    exists i, entries t !! i = Some e.
Proof.
  intros [(n & Hn & Hcap) Hlen Hload Hhome Hlive]. unfold ht_expand.
  rewrite Hcap in *.
  assert (0 < 2 ^ n) by (apply Z.pow_pos_nonneg; lia).
  destruct (wrap (2 ^ n * 2) <? 2 ^ n) eqn:Hov; [discriminate|].
  apply Z.ltb_ge in Hov.
  destruct (wrap_double_pow2 n Hn Hov) as [Hn' Hw].
  replace (2 * 2 ^ n) with (2 ^ n * 2) in Hw by lia.
  destruct calloc_ok; simpl; [|discriminate].
  intros Hx. inv_bind Hx. injection Hx as <-. simpl.
  rewrite Hw in Hrun. replace (2 ^ n * 2) with (2 * 2 ^ n) in Hrun by lia.
  intros j e q Hj Hq.
  destruct (expand_loop_origin h (entries t) n ltac:(lia) Hhome fuel
              (seq 0 (Z.to_nat (2 ^ n))) (calloc (2 * 2 ^ n)) a)
    with (j := j) (e := e) (q := q) as [Hin|(i & _ & Hi)]; auto.
  - apply NoDup_seq.
  - unfold calloc. rewrite length_replicate. lia.
  - apply homed_calloc.
  - intros j' e' q' Hj' Hq'. unfold calloc in Hj'.
    apply lookup_replicate in Hj' as [-> _]. discriminate.
  - unfold calloc in Hin. apply lookup_replicate in Hin as [-> _]. discriminate.
  - eauto.
Qed.

Lemma grow_if_needed_origin fuel calloc_ok t h t' :
  ht_inv t h ->
  grow_if_needed fuel calloc_ok t h = Ret (Some t') ->
  forall j e q, entries t' !! j = Some e -> key e = Some q ->
    exists i, entries t !! i = Some e.
Proof.
  intros Hinv. unfold grow_if_needed.
  destruct (capacity t / 2 <=? length t).
  - intros H. inv_bind H. destruct a as [ok t1].
    destruct ok; [|discriminate]. injection H as ->.
    eapply ht_expand_origin; eauto.
  - intros [= <-]. eauto.
Qed.

(** * The claims *)

(** C5 at a failing input.  [ht_remove] frees the key string and leaves the
    key pointer in the slot.  After set ["a"], remove ["a"], slot 12 is
    occupied by a pointer to freed memory; when the allocator hands that
    block out again for the next key, ["b"], whose home slot is 5, slots 5
    and 12 both point to ["b"]: slot 12 holds, readable, a key whose home
    index is not 12.  So it is not true of every reachable table that the
    keys that can be read in its slots are in their home slots. *)
Theorem home_slot_lost_after_remove :
  (exists t1 h1 t h,
     run 64 [DoSet "a" 1; DoRemove "a"] (fresh, []) = Ret ([0; 0], (t1, h1)) /\
     entries t1 !! 12%nat = Some {| key := Some 0%nat; value := 1 |} /\
     load h1 0 = Crash UseAfterFree /\
     run 64 [DoSetAt "b" 2 0] (t1, h1) = Ret ([0], (t, h)) /\
     entries t !! 12%nat = Some {| key := Some 0%nat; value := 1 |} /\
     entries t !! 5%nat = Some {| key := Some 0%nat; value := 2 |} /\
     load h 0 = Ret "b"%string /\
     home "b" (capacity t) = 5) /\
  ~ (forall t h, reachable (t, h) ->
       live_keys_homed h (entries t) (capacity t)).
Proof.
  split.
  - eexists _, _, _, _. split; [vm_compute; reflexivity|].
    split; [vm_compute; reflexivity|]. split; [vm_compute; reflexivity|].
    split; [vm_compute; reflexivity|]. repeat split; vm_compute; reflexivity.
  - intros Hclaim.
    pose (s := after [DoSet "a" 1; DoRemove "a"; DoSetAt "b" 2 0]).
    assert (Hreach : reachable (s.1, s.2)).
    { rewrite <- surjective_pairing. apply reachable_after. }
    specialize (Hclaim s.1 s.2 Hreach 12%nat {| key := Some 0%nat; value := 1 |}
                  0%nat {| contents := "b"; live := true |}
                  eq_refl eq_refl eq_refl eq_refl).
    vm_compute in Hclaim. discriminate Hclaim.
Qed.



(** C7, amended (failure of [ht_set]).  When [ht_set] returns a failure, the
    length and the store of key strings are what they were before the call,
    and the table is either exactly what it was, or, when the call had to
    grow the table and the growth succeeded, exactly the table [ht_expand]
    produced: the growth is kept, only the insertion is given up. *)
Theorem ht_set_failure_frame fuel ndebug calloc_ok strdup_res t h k v r t' h' :
  ht_set fuel ndebug calloc_ok strdup_res t h k v = Ret (r, t', h') ->
  r <> 0 ->
  h' = h /\ length t' = length t /\
  (t' = t \/
   (capacity t / 2 <= length t /\
    ht_expand fuel calloc_ok t h = Ret (true, t'))).
Proof.
  intros H Hr.
  apply ht_set_cases in H as [(_ & -> & ->)|(t1 & sr & _ & Hg & He & -> & -> & ->)];
    [auto|].
  destruct (sr_ret sr) eqn:Hret; [congruence|].
  destruct (ht_set_entry_insert_failed _ _ _ _ _ _ _ _ _ He Hret) as (-> & -> & ->).
  simpl.
  assert (Heta : {| entries := entries t1; capacity := capacity t1;
                    length := length t1 |} = t1) by (destruct t1; reflexivity).
  rewrite Heta. clear Heta He Hret.
  unfold grow_if_needed in Hg.
  destruct (capacity t / 2 <=? length t) eqn:Hfull.
  - inv_bind Hg. destruct a as [ok t2]. destruct ok; [|discriminate].
    injection Hg as ->. apply Z.leb_le in Hfull.
    split; [reflexivity|]. split; [eapply ht_expand_length, Hrun|].
    right. auto.
  - injection Hg as <-. auto.
Qed.

(** C7, as stated, fails: on the reachable table holding eight keys, a call
    that grows the table and then cannot copy its key returns a failure and
    leaves the table with twice the capacity it had. *)
Lemma ht_set_failure_keeps_growth :
  ~ (forall fuel ndebug calloc_ok strdup_res t h k v r t' h',
       reachable (t, h) ->
       ht_set fuel ndebug calloc_ok strdup_res t h k v = Ret (r, t', h') ->
       r <> 0 ->
       entries t' = entries t /\ capacity t' = capacity t /\ length t' = length t).
Proof.
  intros Hclaim.
  pose (s8 := eight_keys).
  destruct (ht_set 64 true true None s8.1 s8.2 "i" 9) as [[[r t'] h']| |] eqn:E;
    try (vm_compute in E; discriminate E).
  assert (Hr : r <> 0).
  { vm_compute in E. injection E as <- _ _. discriminate. }
  assert (Hcap : capacity t' = 32).
  { vm_compute in E. injection E as _ <- _. reflexivity. }
  destruct (Hclaim 64%nat true true None s8.1 s8.2 "i"%string 9 r t' h')
    as (_ & Hc & _); [|exact E|exact Hr|].
  - rewrite <- surjective_pairing. apply reachable_after.
  - rewrite Hcap in Hc. vm_compute in Hc. discriminate Hc.
Qed.

(** C1 at a failing input: ["a"] and ["q"] have the same home slot in a
    table of capacity 16.  Both [ht_set] calls return 0, the second one
    writes ["q"] over ["a"] in that slot, and [ht_get] of ["a"] returns NULL
    although ["a"] was neither removed nor set again. *)
Theorem colliding_set_overwrites_other_key :
  exists t h,
    run 64 [DoSet "a" 1; DoSet "q" 2] (fresh, []) = Ret ([0; 0], (t, h)) /\
    home "a" (capacity t) = home "q" (capacity t) /\
    (forall fuel, ht_get (S (S fuel)) t h "a" = Ret 0) /\
    (forall fuel, ht_get (S (S fuel)) t h "q" = Ret 2).
Proof.
  eexists _, _. split; [vm_compute; reflexivity|].
  split; [vm_compute; reflexivity|].
  split; intros fuel; vm_compute; reflexivity.
Qed.

(** C2 at a failing input: the table holds ["a"]; ["q"] starts at the same,
    occupied, slot.  [ht_remove] of ["q"] compares against that slot over and
    over, never moving forward, and does not return within any number of
    iterations. *)
Theorem remove_of_colliding_key_never_returns :
  exists t h,
    run 64 [DoSet "a" 1] (fresh, []) = Ret ([0], (t, h)) /\
    (exists e p, entries t !! Z.to_nat (home "q" (capacity t)) = Some e /\
                 key e = Some p) /\
    forall fuel, ht_remove fuel t h "q" = OutOfFuel.
Proof.
  eexists _, _. split; [vm_compute; reflexivity|].
  split; [eexists _, _; split; vm_compute; reflexivity|].
  intros fuel. eapply ht_remove_spins; vm_compute; reflexivity.
Qed.

(** C3 at a failing input: after [ht_set] and a successful [ht_remove] of
    ["a"], its slot still holds the pointer to the freed key, and [ht_get] of
    ["a"] reads through that pointer instead of returning NULL. *)
Theorem get_after_remove_reads_freed_key :
  exists t h,
    run 64 [DoSet "a" 1; DoRemove "a"] (fresh, []) = Ret ([0; 0], (t, h)) /\
    (exists e p, entries t !! Z.to_nat (home "a" (capacity t)) = Some e /\
                 key e = Some p /\ load h p = Crash UseAfterFree) /\
    forall fuel, ht_get (S fuel) t h "a" = Crash UseAfterFree.
Proof.
  eexists _, _. split; [vm_compute; reflexivity|].
  split; [eexists _, _; repeat split; vm_compute; reflexivity|].
  intros fuel. vm_compute. reflexivity.
Qed.

(** C4 at a failing input: nine successful [ht_set] calls with pairwise
    distinct keys, of which ["a"] and ["q"] share a home slot at capacity
    16.  The ninth call starts with [length = capacity / 2], grows the table
    to capacity 32 and leaves [length = 9]; ["a"], inserted first, is not
    retrievable afterwards. *)
Theorem growth_does_not_bring_back_overwritten_key :
  exists t8 h8 t h,
    run 64 [DoSet "a" 1; DoSet "b" 2; DoSet "c" 3; DoSet "d" 4;
            DoSet "e" 5; DoSet "f" 6; DoSet "g" 7; DoSet "q" 8] (fresh, [])
      = Ret ([0; 0; 0; 0; 0; 0; 0; 0], (t8, h8)) /\
    ht_length t8 = capacity t8 / 2 /\
    ht_set 64 true true (Some (List.length h8)) t8 h8 "i" 9 = Ret (0, t, h) /\
    capacity t = 2 * capacity t8 /\
    ht_length t = 9 /\
    ht_get 64 t h "q" = Ret 8 /\
    ht_get 64 t h "a" = Ret 0.
Proof.
  eexists _, _, _, _. split; [vm_compute; reflexivity|].
  split; [vm_compute; reflexivity|].
  split; [vm_compute; reflexivity|].
  repeat split; vm_compute; reflexivity.
Qed.

(** C8 at its scenario: after the three [ht_set] calls the length is 3 and
    [ht_get] of ["b"] returns 2; [ht_remove] of ["a"] returns 0 and the
    length is 2; but [ht_get] of ["a"] then reads the freed key instead of
    returning NULL, and a new cursor hands out three entries, the third being
    the slot of the removed key with its freed key pointer. *)
Theorem scenario_after_remove_still_yields_removed_slot :
  exists t3 h3 t h,
    run 64 [DoSet "a" 1; DoSet "b" 2; DoSet "c" 3] (fresh, [])
      = Ret ([0; 0; 0], (t3, h3)) /\
    ht_length t3 = 3 /\
    ht_get 64 t3 h3 "b" = Ret 2 /\
    ht_remove 64 t3 h3 "a" = Ret (0, t, h) /\
    ht_length t = 2 /\
    ht_get 64 t h "a" = Crash UseAfterFree /\
    cursor_yield 64 64 t ht_iterator
      = Ret [(Some 2%nat, 3); (Some 1%nat, 2); (Some 0%nat, 1)] /\
    load h 2 = Ret "c"%string /\ load h 1 = Ret "b"%string /\
    load h 0 = Crash UseAfterFree.
Proof.
  eexists _, _, _, _. split; [vm_compute; reflexivity|].
  split; [vm_compute; reflexivity|].
  split; [vm_compute; reflexivity|].
  split; [vm_compute; reflexivity|].
  repeat split; vm_compute; reflexivity.
Qed.

(** C9 at a failing input.  ["o"] is set and removed, and the allocator
    hands its block out again for ["A"], so that the slot ["o"] had, 14,
    points to ["A"] as well.  Six more keys and ["a"] (value 100) bring the
    length to 8.  The second [ht_set] of ["a"] (value 200) has to grow the
    table first; growth re-inserts slot 14 as ["A"], whose home slot at
    capacity 32 is 12, the slot of ["a"], over ["a"]; the call then finds no
    ["a"], inserts it anew and returns 0 with length 9.  [ht_get] returns
    200, but the length after the second call is not the length after the
    first; and no freed key was read on the way. *)
Theorem overwrite_after_reuse_adds_to_length :
  exists t0 h0 t1 h1 t2 h2,
    run 64 [DoSet "o" 1; DoRemove "o"; DoSetAt "A" 2 0; DoSet "b" 3; DoSet "c" 4;
            DoSet "d" 5; DoSet "e" 6; DoSet "f" 7; DoSet "g" 8] (fresh, [])
      = Ret ([0; 0; 0; 0; 0; 0; 0; 0; 0], (t0, h0)) /\
    run 64 [DoSet "a" 100] (t0, h0) = Ret ([0], (t1, h1)) /\
    run 64 [DoSet "a" 200] (t1, h1) = Ret ([0], (t2, h2)) /\
    ht_get 64 t2 h2 "a" = Ret 200 /\
    ht_length t1 = 8 /\ ht_length t2 = 9 /\
    capacity t1 = 16 /\ capacity t2 = 32.
Proof.
  eexists _, _, _, _, _, _. split; [vm_compute; reflexivity|].
  split; [vm_compute; reflexivity|].
  split; [vm_compute; reflexivity|].
  repeat split; vm_compute; reflexivity.
Qed.

(** ** The general theorems at concrete tables *)



Lemma ht_set_failure_frame_witness :
  ht_set 64 true true None eight_keys.1 eight_keys.2 "i" 9
    = Ret (-1, eight_keys_grown, eight_keys.2) /\
  -1 <> 0 /\
  length eight_keys_grown = length eight_keys.1 /\
  (eight_keys_grown = eight_keys.1 \/
   (capacity eight_keys.1 / 2 <= length eight_keys.1 /\
    ht_expand 64 true eight_keys.1 eight_keys.2 = Ret (true, eight_keys_grown))).
Proof.
  assert (H : ht_set 64 true true None eight_keys.1 eight_keys.2 "i" 9
              = Ret (-1, eight_keys_grown, eight_keys.2))
    by (vm_compute; reflexivity).
  assert (Hr : -1 <> 0) by lia.
  split; [exact H|]. split; [exact Hr|].
  exact (proj2 (ht_set_failure_frame _ _ _ _ _ _ _ _ _ _ _ H Hr)).
Defined.

(** * Further properties of the code *)

(** ** Hashing and the starting slot *)

Lemma land_le_r a b : 0 <= b -> Z.land a b <= b.
Proof.
  intros Hb.
  pose proof (Z.lor_ldiff_and b a) as H1.
  assert (H2 : Z.land (Z.ldiff b a) (Z.land b a) = 0).
  { rewrite Z.land_assoc, (Z.land_comm (Z.ldiff b a) b), <- Z.land_assoc,
      Z.land_ldiff, Z.land_0_r. reflexivity. }
  apply Z.add_nocarry_lor in H2. rewrite H1 in H2.
  assert (0 <= Z.ldiff b a) by (apply Z.ldiff_nonneg; lia).
  rewrite (Z.land_comm a b). lia.
Qed.

Lemma home_bounds k cap : 0 < cap <= 2 ^ 64 -> 0 <= home k cap < cap.
Proof.
  intros Hc. split; [apply home_nonneg|].
  unfold home. rewrite wrap_small by lia.
  pose proof (land_le_r (hash_key k) (cap - 1) ltac:(lia)). lia.
Qed.

(** [hash_key] reads its argument as a C string: strings that [strcmp]
    finds equal have the same hash, which fits in 64 bits, and so start
    their probe at the same slot, a valid index of the array, whatever the
    capacity (a power of two or not). *)
Theorem hash_key_of_equal_strings a b cap :
  strcmp_eq a b = true -> 0 < cap <= 2 ^ 64 ->
  hash_key a = hash_key b /\ 0 <= hash_key a < 2 ^ 64 /\
  home a cap = home b cap /\ 0 <= home a cap < cap.
Proof.
  intros Hs Hc.
  assert (Hh : hash_key a = hash_key b).
  { unfold strcmp_eq in Hs. apply String.eqb_eq in Hs.
    unfold hash_key. rewrite <- (hash_loop_cstr a), <- (hash_loop_cstr b), Hs.
    reflexivity. }
  split; [exact Hh|]. split; [apply hash_key_range|].
  split; [unfold home; rewrite Hh; reflexivity|apply home_bounds, Hc].
Qed.

(** ** The probe loop stops *)

Lemma steps_from_range cap index i :
  0 <= index < cap -> 0 <= i < cap -> 0 <= steps_from cap index i < cap.
Proof. unfold steps_from. destruct (index <=? i) eqn:E; lia. Qed.

Lemma steps_from_next cap index i :
  0 <= index < cap -> 0 <= i < cap -> cap < 2 ^ 64 ->
  let i2 := if cap <=? wrap (i + 1) then 0 else wrap (i + 1) in
  0 <= i2 < cap /\
  (i2 <> index -> steps_from cap index i2 = steps_from cap index i + 1) /\
  (i2 = index -> steps_from cap index i = cap - 1).
Proof.
  intros Hx Hi Hc. rewrite wrap_small by lia. cbv zeta.
  unfold steps_from.
  destruct (cap <=? i + 1) eqn:E1; destruct (index <=? i) eqn:E2;
    try destruct (index <=? 0) eqn:E3; try destruct (index <=? i + 1) eqn:E4;
    lia.
Qed.

Lemma probe_result fuel h es cap k index : forall i,
  Z.of_nat (List.length es) = cap -> cap < 2 ^ 64 ->
  0 <= index < cap -> 0 <= i < cap ->
  cap - steps_from cap index i <= Z.of_nat fuel ->
  (exists r, probe fuel h es cap k index i = Ret r) \/
  probe fuel h es cap k index i = Crash UseAfterFree.
Proof.
  induction fuel as [|fuel IH]; intros i Hlen Hc Hx Hi Hfuel.
  - pose proof (steps_from_range cap index i Hx Hi). lia.
  - simpl. unfold slot.
    destruct (lookup_lt_is_Some_2 es (Z.to_nat i)) as [e He]; [lia|].
    rewrite He. simpl.
    destruct (key e) as [p|]; [|left; eauto].
    unfold load. destruct (h !! p) as [b|]; [|right; reflexivity].
    destruct (live b); [|right; reflexivity]. simpl.
    destruct (strcmp_eq k (contents b)); [left; eauto|].
    destruct (steps_from_next cap index i Hx Hi Hc) as (Hi2 & Hnext & _).
    destruct (_ =? index) eqn:E; [left; eauto|].
    apply Z.eqb_neq in E. apply IH; auto.
    rewrite (Hnext E). lia.
Qed.

Lemma probe_all_live fuel h es cap k index : forall i,
  all_live h es -> probe fuel h es cap k index i <> Crash UseAfterFree.
Proof.
  induction fuel as [|fuel IH]; intros i Hlive; simpl; [discriminate|].
  unfold slot. destruct (es !! Z.to_nat i) as [e|] eqn:He; simpl; [|discriminate].
  destruct (key e) as [p|] eqn:Hk; [|discriminate].
  destruct (Hlive _ _ _ He Hk) as [s Hs]. rewrite Hs. simpl.
  destruct (strcmp_eq k s); [discriminate|].
  destruct (_ =? index); [discriminate|]. apply IH, Hlive.
Qed.

(** [ht_get] stops within [capacity] iterations of its loop and never reads
    outside the array: on any table whose array has [capacity] slots it
    returns, or faults on a freed key; and it returns when no stored key has
    been freed. *)
Theorem ht_get_returns_within_capacity fuel t h k :
  Z.of_nat (List.length (entries t)) = capacity t ->
  0 < capacity t < 2 ^ 64 ->
  capacity t <= Z.of_nat fuel ->
  ((exists v, ht_get fuel t h k = Ret v) \/
   ht_get fuel t h k = Crash UseAfterFree) /\
  (all_live h (entries t) -> exists v, ht_get fuel t h k = Ret v).
Proof.
  intros Hlen Hc Hfuel.
  pose proof (home_bounds k (capacity t) ltac:(lia)) as Hx.
  assert (Hres : (exists v, ht_get fuel t h k = Ret v) \/
                 ht_get fuel t h k = Crash UseAfterFree).
  { unfold ht_get.
    destruct (probe_result fuel h (entries t) (capacity t) k
                (home k (capacity t)) (home k (capacity t)))
      as [[r Hr]|Hr]; auto; try lia.
    - pose proof (steps_from_range _ _ _ Hx Hx). lia.
    - rewrite Hr. simpl. left. destruct r; eauto.
    - rewrite Hr. right. reflexivity. }
  split; [exact Hres|].
  intros Hlive. destruct Hres as [Hv|Hcrash]; [exact Hv|exfalso].
  unfold ht_get in Hcrash.
  pose proof (probe_all_live fuel h (entries t) (capacity t) k
                (home k (capacity t)) (home k (capacity t)) Hlive) as Hno.
  destruct (probe fuel h (entries t) (capacity t) k (home k (capacity t))
              (home k (capacity t))) as [r|f|];
    [destruct r; discriminate| |discriminate].
  simpl in Hcrash. congruence.
Qed.

Lemma probe_stops fuel h es cap k index : forall i,
  cap < 2 ^ 64 -> 0 <= index < cap -> 0 <= i < cap ->
  cap - steps_from cap index i <= Z.of_nat fuel ->
  probe fuel h es cap k index i <> OutOfFuel.
Proof.
  induction fuel as [|fuel IH]; intros i Hc Hx Hi Hfuel.
  - pose proof (steps_from_range cap index i Hx Hi). lia.
  - simpl. unfold slot. destruct (es !! Z.to_nat i) as [e|]; simpl; [|discriminate].
    destruct (key e) as [p|]; [|discriminate].
    unfold load. destruct (h !! p) as [b|]; [|discriminate].
    destruct (live b); simpl; [|discriminate].
    destruct (strcmp_eq k (contents b)); [discriminate|].
    destruct (steps_from_next cap index i Hx Hi Hc) as (Hi2 & Hnext & _).
    destruct (_ =? index) eqn:E; [discriminate|].
    apply Z.eqb_neq in E. apply IH; auto.
    rewrite (Hnext E). lia.
Qed.

Lemma ht_set_entry_stops fuel h es cap m v :
  0 < cap < 2 ^ 64 -> cap <= Z.of_nat fuel ->
  ht_set_entry fuel h es cap m v <> OutOfFuel.
Proof.
  intros Hc Hfuel. unfold ht_set_entry.
  assert (Hk : mode_key h m <> OutOfFuel).
  { destruct m as [k len so|p]; simpl; [discriminate|].
    unfold load. destruct (h !! p) as [b|]; [destruct (live b)|]; discriminate. }
  destruct (mode_key h m) as [k| |]; simpl; [|discriminate|congruence].
  pose proof (home_bounds k cap ltac:(lia)) as Hx.
  pose proof (steps_from_range _ _ _ Hx Hx).
  pose proof (probe_stops fuel h es cap k (home k cap) (home k cap)
                ltac:(lia) Hx Hx ltac:(lia)) as Hp.
  destruct (probe fuel h es cap k (home k cap) (home k cap)) as [r| |];
    simpl; [|discriminate|congruence].
  destruct r; [discriminate| |discriminate].
  destruct m as [k' len [addr|]|p];
    [destruct (strdup h k addr)| |]; discriminate.
Qed.

Lemma expand_loop_stops fuel h old new_capacity : forall todo new_entries,
  0 < new_capacity < 2 ^ 64 -> new_capacity <= Z.of_nat fuel ->
  expand_loop fuel h old todo new_entries new_capacity <> OutOfFuel.
Proof.
  induction todo as [|i todo IH]; intros new Hc Hfuel; simpl; [discriminate|].
  unfold slot. destruct (old !! Z.to_nat (Z.of_nat i)) as [e|]; simpl; [|discriminate].
  destruct (key e) as [p|]; [|apply IH; auto].
  pose proof (ht_set_entry_stops fuel h new new_capacity (Rehash p) (value e)
                Hc Hfuel) as Hs.
  destruct (ht_set_entry fuel h new new_capacity (Rehash p) (value e)) as [r| |];
    simpl; [apply IH; auto|discriminate|congruence].
Qed.

(** [ht_set] always comes back: on any table with a capacity a [size_t] can
    hold it stops within twice [capacity] iterations of each of its loops
    (the probe, and the probes of the re-insertions when it grows). *)
Theorem ht_set_stops fuel ndebug calloc_ok strdup_res t h k v :
  0 < capacity t < 2 ^ 64 ->
  2 * capacity t <= Z.of_nat fuel ->
  ht_set fuel ndebug calloc_ok strdup_res t h k v <> OutOfFuel.
Proof.
  intros Hc Hfuel. unfold ht_set.
  destruct (v =? 0); [destruct ndebug; discriminate|].
  assert (Hg : match grow_if_needed fuel calloc_ok t h with
               | Ret (Some t1) => 0 < capacity t1 <= 2 * capacity t /\ capacity t1 < 2 ^ 64
               | Ret None => True
               | Crash _ => True
               | OutOfFuel => False
               end).
  { unfold grow_if_needed. destruct (_ <=? length t); [|simpl; lia].
    unfold ht_expand. destruct (wrap (capacity t * 2) <? capacity t) eqn:Hov;
      [simpl; trivial|].
    apply Z.ltb_ge in Hov.
    assert (Hw : wrap (capacity t * 2) = 2 * capacity t).
    { unfold wrap in *. change (2 ^ 64) with 18446744073709551616 in *. dlia. }
    pose proof (wrap_range (capacity t * 2)) as Hr.
    destruct calloc_ok; simpl; [|trivial].
    pose proof (expand_loop_stops fuel h (entries t) (wrap (capacity t * 2))
                  (seq 0 (Z.to_nat (capacity t))) (calloc (wrap (capacity t * 2)))
                  ltac:(lia) ltac:(lia)) as Hs.
    destruct (expand_loop _ _ _ _ _ _) as [es| |]; simpl; [lia|trivial|congruence]. }
  destruct (grow_if_needed fuel calloc_ok t h) as [[t1|]| |]; simpl;
    [|discriminate|discriminate|contradiction].
  pose proof (ht_set_entry_stops fuel h (entries t1) (capacity t1)
                (Insert k (length t1) strdup_res) v ltac:(lia) ltac:(lia)) as Hs.
  destruct (ht_set_entry _ _ _ _ _ _) as [r| |]; simpl;
    [discriminate|discriminate|congruence].
Qed.

(** ** A table nothing was removed from is never full *)

Lemma steps_from_inj cap index i j :
  0 <= index < cap -> 0 <= i < cap -> 0 <= j < cap ->
  steps_from cap index i = steps_from cap index j -> i = j.
Proof.
  unfold steps_from. destruct (index <=? i) eqn:E1, (index <=? j) eqn:E2; lia.
Qed.

Lemma probe_Wrapped_live fuel h es cap k index : forall i,
  cap < 2 ^ 64 -> 0 <= index < cap -> 0 <= i < cap ->
  probe fuel h es cap k index i = Ret Wrapped ->
  forall j, 0 <= j < cap ->
    steps_from cap index i <= steps_from cap index j ->
    live_at h es (Z.to_nat j) = true.
Proof.
  induction fuel as [|fuel IH]; intros i Hc Hx Hi; simpl; [discriminate|].
  intros H. inv_bind H. rename a into e. apply slot_Ret in Hrun.
  destruct (key e) as [p|] eqn:Hk; [|discriminate].
  inv_bind H. rename a into s. apply load_Ret in Hrun0 as (b & Hb & Hlive & _).
  destruct (strcmp_eq k s); [discriminate|].
  assert (Hhere : live_at h es (Z.to_nat i) = true).
  { unfold live_at. rewrite Hrun. unfold is_live. rewrite Hk, Hb. exact Hlive. }
  destruct (steps_from_next cap index i Hx Hi Hc) as (Hi2 & Hnext & Hlast).
  intros j Hj Hsteps.
  pose proof (steps_from_range cap index j Hx Hj) as Hrj.
  destruct (Z.eq_dec (steps_from cap index i) (steps_from cap index j)) as [E|E].
  { apply steps_from_inj in E; auto. subst j. exact Hhere. }
  destruct (_ =? index) eqn:Ei.
  - apply Z.eqb_eq in Ei. specialize (Hlast Ei). lia.
  - apply Z.eqb_neq in Ei. specialize (Hnext Ei).
    eapply IH; [exact Hc|exact Hx|exact Hi2|exact H|exact Hj|]. lia.
Qed.

Lemma count_all_true {A} (f : A -> bool) (l : list A) :
  (forall i, (i < List.length l)%nat -> exists x, l !! i = Some x /\ f x = true) ->
  count f l = List.length l.
Proof.
  induction l as [|y l IH]; intros H; simpl; [reflexivity|].
  destruct (H O) as (x & Hx & Hf); [simpl; lia|].
  injection Hx as ->. rewrite Hf. f_equal. apply IH.
  intros i Hi. apply (H (S i)). simpl. lia.
Qed.

Lemma pow2_cap_size_t cap : pow2_cap cap -> 0 < cap < 2 ^ 64.
Proof.
  intros H. apply pow2_cap_range in H.
  assert (2 ^ 63 < 2 ^ 64) by reflexivity. lia.
Qed.

Lemma ht_inv_not_full fuel t h k :
  ht_inv t h ->
  probe fuel h (entries t) (capacity t) k (home k (capacity t))
    (home k (capacity t)) <> Ret Wrapped.
Proof.
  intros Hinv Hw.
  pose proof (pow2_cap_range _ (inv_cap _ _ Hinv)) as Hr.
  pose proof (pow2_cap_size_t _ (inv_cap _ _ Hinv)) as Hr'.
  pose proof (home_bounds k (capacity t) ltac:(lia)) as Hx.
  pose proof (steps_from_range _ _ _ Hx Hx) as Hs0.
  assert (Hall : count (is_live h) (entries t) = List.length (entries t)).
  { apply count_all_true. intros i Hi.
    pose proof (inv_len _ _ Hinv) as Hlen.
    assert (Hc : capacity t < 2 ^ 64) by lia.
    assert (Hj : 0 <= Z.of_nat i < capacity t) by lia.
    pose proof (probe_Wrapped_live _ _ _ _ _ _ _ Hc Hx Hx Hw
                  (Z.of_nat i) Hj) as Hlive.
    unfold steps_from at 1 in Hlive. rewrite Z.leb_refl in Hlive.
    pose proof (steps_from_range _ _ (Z.of_nat i) Hx ltac:(lia)).
    specialize (Hlive ltac:(lia)). rewrite Nat2Z.id in Hlive.
    unfold live_at in Hlive. destruct (entries t !! i) as [e|]; [eauto|discriminate]. }
  pose proof (inv_live _ _ Hinv). pose proof (inv_load _ _ Hinv).
  pose proof (inv_len _ _ Hinv). dlia.
Qed.

(** On a table reachable from [ht_create] by [ht_set] calls alone, [ht_set]
    fails only for a NULL value or for lack of memory: because the growth it
    needed failed ([calloc], or a capacity that cannot be doubled), or
    because the key could not be copied.  The exit of the probe loop for a
    full table is never taken. *)
Theorem ht_set_fails_only_for_lack_of_memory
    fuel ndebug calloc_ok strdup_res t h k v r t' h' :
  reachable_by_set (t, h) ->
  ht_set fuel ndebug calloc_ok strdup_res t h k v = Ret (r, t', h') ->
  r <> 0 ->
  v = 0 \/
  (capacity t / 2 <= length t /\ (calloc_ok = false \/ capacity t = 2 ^ 63)) \/
  strdup_res = None.
Proof.
  intros Hreach H Hr. apply reachable_by_set_inv in Hreach. simpl in Hreach.
  unfold ht_set in H. destruct (v =? 0) eqn:Hv; [left; by apply Z.eqb_eq|].
  inv_bind H. destruct a as [t1|].
  - inv_bind H. rename a into sr. injection H as <- _ _.
    destruct (grow_if_needed_spec _ _ _ _ _ Hreach Hrun) as (Hinv1 & _).
    unfold ht_set_entry in Hrun0. simpl in Hrun0. inv_bind Hrun0.
    destruct a as [i e|i|].
    + apply probe_Match in Hrun1 as (_ & p & s & Hk & _).
      injection Hrun0 as <-. simpl in Hr. rewrite Hk in Hr. congruence.
    + destruct strdup_res as [addr|]; [|auto].
      destruct (strdup h k addr) as [p h1].
      injection Hrun0 as <-. simpl in Hr. congruence.
    + exfalso. eapply ht_inv_not_full; eauto.
  - right. left. unfold grow_if_needed in Hrun.
    destruct (capacity t / 2 <=? length t) eqn:Hfull; [|discriminate].
    apply Z.leb_le in Hfull. split; [exact Hfull|].
    inv_bind Hrun. destruct a as [ok t2]. destruct ok; [discriminate|].
    unfold ht_expand in Hrun0.
    destruct (wrap (capacity t * 2) <? capacity t) eqn:Hov.
    + right. apply Z.ltb_lt in Hov.
      destruct (inv_cap _ _ Hreach) as (n & Hn & Hc). rewrite Hc in *.
      destruct (Z.eq_dec n 63) as [->|Hne]; [reflexivity|exfalso].
      assert (2 ^ n <= 2 ^ 62) by (apply Z.pow_le_mono_r; lia).
      assert (0 < 2 ^ n) by (apply Z.pow_pos_nonneg; lia).
      rewrite wrap_small in Hov by lia. lia.
    + destruct calloc_ok; [|auto]. simpl in Hrun0. inv_bind Hrun0. discriminate.
Qed.

(** ** Stored values *)

Lemma values_set_fits es : values_set es <-> fits (fun _ => True) (fun v => v <> 0) es.
Proof.
  split.
  - intros H j e q Hj Hq. split; [trivial|eapply H; eauto].
  - intros H j e q Hj Hq. eapply H; eauto.
Qed.

Lemma values_set_insert es (i : nat) p v :
  values_set es -> v <> 0 ->
  values_set (<[ i := {| key := p; value := v |} ]> es).
Proof.
  intros Hvals Hv j e q Hj Hq. destruct (decide (i = j)) as [<-|Hne].
  - assert (Hlt : (i < List.length es)%nat).
    { apply lookup_lt_Some in Hj. rewrite length_insert in Hj. exact Hj. }
    rewrite list_lookup_insert_eq in Hj by exact Hlt.
    injection Hj as <-. exact Hv.
  - rewrite list_lookup_insert_ne in Hj by exact Hne. eapply Hvals; eauto.
Qed.

Lemma step_values s s' :
  values_set (entries s.1) -> step s s' -> values_set (entries s'.1).
Proof.
  intros Hvals Hstep.
  destruct Hstep as [fuel nd co so t h k v r t' h' H|fuel t h k r t' h' H];
    simpl in *.
  - apply ht_set_cases in H
      as [(_ & -> & _)|(t1 & sr & Hv & Hg & He & _ & -> & _)]; [exact Hvals|].
    assert (Hvals1 : values_set (entries t1)).
    { apply values_set_fits. apply values_set_fits in Hvals.
      eapply grow_if_needed_shape; eauto. }
    apply ht_set_entry_insert in He as [_ Hcase]. simpl.
    destruct Hcase as [_ -> _ _|i e p s _ _ _ _ _ -> _ _|addr p h1 _ _ -> _ _];
      [exact Hvals1| |]; apply values_set_insert; assumption.
  - apply ht_remove_cases in H
      as [(_ & -> & _)|(_ & e & p & b & _ & _ & _ & _ & _ & -> & _)]; exact Hvals.
Qed.

Lemma reachable_values s : reachable s -> values_set (entries s.1).
Proof.
  induction 1 as [mo co mu t h H|s s' Hs IH Hstep].
  - unfold ht_create in H.
    destruct mo, co, mu; simpl in H; try discriminate.
    injection H as <-. simpl. intros j e q Hj Hq.
    unfold calloc in Hj. apply lookup_replicate in Hj as [-> _]. discriminate.
  - eapply step_values; eauto.
Qed.

(** No slot of a reachable table holds a key with a NULL value: [ht_set]
    refuses NULL, and growth and removal copy or keep the values they
    find. *)
Theorem stored_values_never_null t h (i : nat) e p :
  reachable (t, h) -> entries t !! i = Some e -> key e = Some p ->
  value e <> 0.
Proof.
  intros Hreach. apply (reachable_values _ Hreach).
Qed.

(** ** What [ht_get] finds *)

Lemma ht_get_found fuel t h k v :
  ht_inv t h -> ht_get fuel t h k = Ret v -> v <> 0 -> present k v t h.
Proof.
  intros Hinv H Hv. unfold ht_get in H. inv_bind H.
  destruct a as [i e|i|]; [|congruence..].
  injection H as <-.
  apply probe_Match in Hrun as (He & p & s & Hk & Hl & Hs).
  apply load_Ret in Hl as (b & Hb & Hlive & <-).
  destruct (inv_home _ _ Hinv _ _ _ He Hk) as (b' & Hb' & _ & Hhome).
  assert (b' = b) by congruence. subst b'.
  rewrite <- (strcmp_eq_home _ _ _ Hs) in Hhome.
  exists e, p, b. rewrite Hhome, Nat2Z.id. auto 10.
Qed.

(** On a table reachable from [ht_create] by [ht_set] calls alone, [ht_get]
    returns a non-NULL value [v] exactly when the slot the probe starts at
    holds a key equal to the one asked for, with value [v]: a key stored
    anywhere else would not be found, and none is. *)
Theorem ht_get_finds_exactly_home_slot fuel t h k v :
  reachable_by_set (t, h) -> v <> 0 ->
  (ht_get (S fuel) t h k = Ret v <-> present k v t h).
Proof.
  intros Hreach Hv. apply reachable_by_set_inv in Hreach. simpl in Hreach. split.
  - intros H. eapply ht_get_found; eauto.
  - apply ht_get_present.
Qed.

(** On a reachable table a NULL result of [ht_get] is never the value of
    the key: it means the key is not in the slot its probe starts at. *)
Theorem ht_get_null_means_absent fuel t h k :
  reachable (t, h) -> ht_get fuel t h k = Ret 0 ->
  forall v, ~ present k v t h.
Proof.
  intros Hreach H v Hp.
  pose proof (reachable_values _ Hreach) as Hvals. simpl in Hvals.
  destruct fuel as [|fuel]; [discriminate|].
  rewrite (ht_get_present fuel k v t h Hp) in H. injection H as ->.
  destruct Hp as (e & p & b & He & Hk & Hv & _).
  eapply Hvals; eauto.
Qed.

(** ** [ht_set] and the keys of the table *)

(** A probe that stopped stops the same way with any other number of
    iterations that lets it stop. *)
Lemma probe_fuel_irrelevant h es cap k index : forall fuel fuel' i r,
  probe fuel h es cap k index i = Ret r ->
  probe fuel' h es cap k index i <> OutOfFuel ->
  probe fuel' h es cap k index i = Ret r.
Proof.
  induction fuel as [|fuel IH]; intros fuel' i r; simpl; [discriminate|].
  destruct fuel' as [|fuel']; simpl; [congruence|].
  destruct (slot es i) as [e| |]; simpl; try discriminate.
  destruct (key e) as [p|]; [|auto].
  destruct (load h p) as [s| |]; simpl; try discriminate.
  destruct (strcmp_eq k s); [auto|].
  destruct (_ =? index); [auto|]. apply IH.
Qed.

(** The probe looks at key pointers only: on an array with the same key
    pointers in the same slots it stops at the same slot. *)
Lemma probe_same_keys h es es' cap k index :
  (forall j : nat, key <$> es' !! j = key <$> es !! j) ->
  forall fuel i r,
    probe fuel h es cap k index i = Ret r ->
    match r with
    | Match j e =>
        exists e', es' !! Z.to_nat j = Some e' /\ key e' = key e /\
                   probe fuel h es' cap k index i = Ret (Match j e')
    | _ => probe fuel h es' cap k index i = Ret r
    end.
Proof.
  intros Hkeys. induction fuel as [|fuel IH]; intros i r H; [discriminate|].
  cbn [probe] in H. inv_bind H. rename a into e0. apply slot_Ret in Hrun.
  pose proof (Hkeys (Z.to_nat i)) as Hi. rewrite Hrun in Hi. simpl in Hi.
  destruct (es' !! Z.to_nat i) as [e0'|] eqn:He0'; [|discriminate].
  simpl in Hi. injection Hi as Hk0.
  assert (Hs' : slot es' i = Ret e0') by (apply slot_Ret; exact He0').
  destruct (key e0) as [p|] eqn:Hp.
  - inv_bind H. rename a into s.
    destruct (strcmp_eq k s) eqn:Hs.
    + injection H as <-. exists e0'. split; [exact He0'|]. split; [congruence|].
      cbn [probe]. rewrite Hs'. simpl. rewrite Hk0, Hrun0. simpl. rewrite Hs.
      reflexivity.
    + assert (Hstep : probe (S fuel) h es' cap k index i
                      = if (if cap <=? wrap (i + 1) then 0 else wrap (i + 1)) =? index
                        then Ret Wrapped
                        else probe fuel h es' cap k index
                               (if cap <=? wrap (i + 1) then 0 else wrap (i + 1))).
      { cbn [probe]. rewrite Hs'. simpl. rewrite Hk0, Hrun0. simpl. rewrite Hs.
        reflexivity. }
      rewrite Hstep. cbv zeta in H.
      destruct (_ =? index); [injection H as <-; reflexivity|].
      apply IH, H.
  - injection H as <-. cbn [probe]. rewrite Hs'. simpl. rewrite Hk0. reflexivity.
Qed.

(** Set then get: on a reachable table, whatever [ht_set] had to do
    (overwrite, insert, grow first) and whatever was removed before, once it
    returns 0 [ht_get] of the same key returns the value just set.  The
    loop of [ht_get] repeats the steps the probe of [ht_set] made, and
    [capacity] iterations are enough for it. *)
Theorem ht_set_then_get fuel ndebug calloc_ok strdup_res t h k v t' h' :
  reachable (t, h) ->
  ht_set fuel ndebug calloc_ok strdup_res t h k v = Ret (0, t', h') ->
  forall fuel', capacity t' <= Z.of_nat fuel' -> ht_get fuel' t' h' k = Ret v.
Proof.
  intros Hreach H fuel' Hfuel. apply reachable_wf in Hreach. simpl in Hreach.
  pose proof (ht_set_wf _ _ _ _ _ _ _ _ _ _ _ Hreach H) as Hwf'.
  pose proof (pow2_cap_size_t _ (wf_cap _ _ Hwf')) as Hsz.
  apply ht_set_cases in H as [(? & _)|(t1 & sr & _ & Hg & He & Hr & -> & ->)];
    [discriminate|].
  simpl in *. unfold ht_get. simpl.
  pose proof (home_bounds k (capacity t1) ltac:(lia)) as Hx.
  assert (Hstop : probe fuel' (sr_heap sr) (sr_entries sr) (capacity t1) k
                    (home k (capacity t1)) (home k (capacity t1)) <> OutOfFuel).
  { apply probe_stops; try lia.
    pose proof (steps_from_range _ _ _ Hx Hx). lia. }
  unfold ht_set_entry in He. simpl in He. inv_bind He.
  destruct a as [i e|i|].
  - injection He as <-. simpl in *.
    pose proof Hrun as Hm. apply probe_Match in Hm as (Hi & _).
    assert (Hkeys : forall j : nat,
              key <$> <[ Z.to_nat i := {| key := key e; value := v |} ]>
                        (entries t1) !! j
              = key <$> entries t1 !! j).
    { intros j. destruct (decide (Z.to_nat i = j)) as [<-|Hne].
      - rewrite list_lookup_insert_eq by (eapply lookup_lt_Some, Hi).
        rewrite Hi. reflexivity.
      - rewrite list_lookup_insert_ne by exact Hne. reflexivity. }
    pose proof (probe_same_keys h _ _ (capacity t1) k (home k (capacity t1))
                  Hkeys _ _ _ Hrun) as Hp'.
    simpl in Hp'. destruct Hp' as (e' & He' & _ & Hp').
    rewrite list_lookup_insert_eq in He' by (eapply lookup_lt_Some, Hi).
    injection He' as <-.
    rewrite (probe_fuel_irrelevant _ _ _ _ _ _ _ _ _ Hp' Hstop). reflexivity.
  - destruct strdup_res as [addr|]; [|injection He as <-; discriminate].
    destruct (strdup h k addr) as [p h1] eqn:Hdup. injection He as <-. simpl in *.
    apply strdup_spec in Hdup as (Hnew & _ & _).
    apply probe_start in Hrun as [e0 He0].
    destruct fuel' as [|fuel']; [lia|].
    rewrite (probe_first_match fuel' h1 _ (capacity t1) k (home k (capacity t1))
               (home k (capacity t1)) {| key := Some p; value := v |} p (cstr k));
      [reflexivity| |reflexivity| |].
    + apply list_lookup_insert_eq. eapply lookup_lt_Some, He0.
    + apply load_Ret. eauto.
    + apply strcmp_eq_cstr.
  - injection He as <-. discriminate.
Qed.

Lemma strdup_keeps_live h s addr p h' :
  strdup h s addr = (p, h') ->
  forall q b, h !! q = Some b -> live b = true -> h' !! q = Some b.
Proof.
  intros Hdup q b Hb Hlive.
  apply strdup_spec in Hdup as (_ & Hfree & Hsame).
  rewrite Hsame; [exact Hb|].
  intros ->. specialize (Hfree _ Hb). congruence.
Qed.

Lemma present_insert_other k' v' es cap len h (i : nat) x :
  present k' v' {| entries := es; capacity := cap; length := len |} h ->
  i <> Z.to_nat (home k' cap) ->
  forall len' h',
    (forall q b, h !! q = Some b -> live b = true -> h' !! q = Some b) ->
    present k' v' {| entries := <[ i := x ]> es; capacity := cap; length := len' |} h'.
Proof.
  intros (e & p & b & He & Hk & Hv & Hb & Hlive & Hs) Hne len' h' Hkeep.
  simpl in *.
  exists e, p, b. simpl. rewrite list_lookup_insert_ne by exact Hne.
  repeat split; auto.
Qed.

(** [ht_set] leaves alone every key that starts its probe at another slot:
    on a table reachable from [ht_create] by [ht_set] calls alone, a key
    [k'] that is present stays present with its value across a call for
    [k], successful or not, growing or not, as long as [k] and [k'] start at
    different slots of the resulting table. *)
Theorem ht_set_keeps_keys_of_other_slots
    fuel ndebug calloc_ok strdup_res t h k v r t' h' k' v' :
  reachable_by_set (t, h) ->
  present k' v' t h ->
  ht_set fuel ndebug calloc_ok strdup_res t h k v = Ret (r, t', h') ->
  home k (capacity t') <> home k' (capacity t') ->
  present k' v' t' h'.
Proof.
  intros Hreach Hp H Hne. apply reachable_by_set_inv in Hreach. simpl in Hreach.
  apply ht_set_cases in H
    as [(_ & -> & ->)|(t1 & sr & _ & Hg & He & _ & -> & ->)]; [exact Hp|].
  destruct (grow_if_needed_spec _ _ _ _ _ Hreach Hg) as (Hinv1 & _ & _ & _ & Hmoved).
  assert (Hp1 : present k' v' t1 h).
  { destruct Hp as (e & p & b & He' & Hk & Hv & Hb & Hlive & Hs).
    destruct (Hmoved _ _ _ He' Hk) as (b' & Hb' & He1).
    assert (b' = b) by congruence. subst b'.
    rewrite <- (strcmp_eq_home _ _ _ Hs) in He1.
    exists e, p, b. auto 10. }
  simpl in Hne.
  assert (Hnat : Z.to_nat (home k (capacity t1)) <> Z.to_nat (home k' (capacity t1))).
  { pose proof (home_nonneg k (capacity t1)).
    pose proof (home_nonneg k' (capacity t1)). lia. }
  apply ht_set_entry_insert in He as [_ Hcase].
  assert (Heta : forall len', present k' v'
            {| entries := entries t1; capacity := capacity t1; length := len' |} h).
  { intros len'. destruct Hp1 as (e & p & b & ?). exists e, p, b. assumption. }
  destruct Hcase as [_ -> _ ->|i e p s Hi Hk Hl Hs _ -> _ ->|addr p h1 Hdup _ -> _ ->].
  - apply Heta.
  - apply load_Ret in Hl as (b & Hb & _ & <-).
    destruct (inv_home _ _ Hinv1 _ _ _ Hi Hk) as (b' & Hb' & _ & Hhome).
    assert (b' = b) by congruence. subst b'.
    rewrite <- (strcmp_eq_home _ _ _ Hs) in Hhome.
    apply (present_insert_other k' v' (entries t1) (capacity t1) (length t1) h);
      [apply Heta| |auto].
    rewrite Hhome, Nat2Z.id in Hnat. exact Hnat.
  - apply (present_insert_other k' v' (entries t1) (capacity t1) (length t1) h);
      [apply Heta|exact Hnat|].
    eapply strdup_keeps_live, Hdup.
Qed.

(** [ht_set] takes the slot of a key it collides with: on a table reachable
    from [ht_create] by [ht_set] calls alone, once [ht_set] of [k] has
    returned 0, no different key [k'] that starts its probe at the same slot
    of the resulting table can be found by [ht_get], whether it was stored
    before or not. *)
Theorem ht_set_evicts_colliding_key
    fuel ndebug calloc_ok strdup_res t h k v t' h' k' :
  reachable_by_set (t, h) ->
  ht_set fuel ndebug calloc_ok strdup_res t h k v = Ret (0, t', h') ->
  strcmp_eq k k' = false ->
  home k (capacity t') = home k' (capacity t') ->
  forall fuel' w, ht_get fuel' t' h' k' = Ret w -> w = 0.
Proof.
  intros Hreach H Hdiff Hhome fuel' w Hget.
  pose proof (reachable_by_set_inv _ Hreach) as Hinv. simpl in Hinv.
  pose proof (ht_set_inv _ _ _ _ _ _ _ _ _ _ _ Hinv H) as Hinv'.
  pose proof (ht_set_present _ _ _ _ _ _ _ _ _ _ Hinv H)
    as (e & p & b & He & Hk & _ & Hb & _ & Hs).
  destruct (Z.eq_dec w 0) as [|Hw]; [assumption|exfalso].
  destruct (ht_get_found _ _ _ _ _ Hinv' Hget Hw)
    as (e' & p' & b' & He' & Hk' & _ & Hb' & _ & Hs').
  rewrite <- Hhome in He'.
  assert (e' = e) by congruence. subst e'.
  assert (p' = p) by congruence. subst p'.
  assert (b' = b) by congruence. subst b'.
  unfold strcmp_eq in *.
  apply String.eqb_eq in Hs, Hs'. apply String.eqb_neq in Hdiff. congruence.
Qed.

(** [length] counts first insertions.  On a table reachable from
    [ht_create] by [ht_set] calls alone, a successful [ht_set] leaves
    [length] alone when its key was already present, and adds one when it
    was not, collision or not, growth or not. *)
Theorem ht_set_length fuel ndebug calloc_ok strdup_res t h k v t' h' :
  reachable_by_set (t, h) ->
  ht_set fuel ndebug calloc_ok strdup_res t h k v = Ret (0, t', h') ->
  ((exists v0, present k v0 t h) /\ length t' = length t) \/
  ((forall v0, ~ present k v0 t h) /\ length t' = length t + 1).
Proof.
  intros Hreach H. apply reachable_by_set_inv in Hreach. simpl in Hreach.
  pose proof H as H0.
  apply ht_set_cases in H
    as [(? & _)|(t1 & sr & _ & Hg & He & Hr & -> & _)]; [discriminate|].
  destruct (grow_if_needed_spec _ _ _ _ _ Hreach Hg)
    as (Hinv1 & Hroom & Hlen & _ & _).
  pose proof (pow2_cap_size_t _ (inv_cap _ _ Hinv1)) as Hsz.
  pose proof (inv_load _ _ Hinv1) as Hload1.
  apply ht_set_entry_insert in He as [_ Hcase].
  destruct Hcase as [Hnull _ _ _|i e p s Hi Hk Hl Hs _ _ Hl' _|addr p h1 _ _ _ Hl' _].
  - rewrite Hnull in Hr. discriminate.
  - left. simpl. rewrite Hl'. simpl. split; [|exact Hlen].
    destruct (grow_if_needed_origin _ _ _ _ _ Hreach Hg _ _ _ Hi Hk) as [i0 Hi0].
    apply load_Ret in Hl as (b & Hb & Hlive & <-).
    destruct (inv_home _ _ Hreach _ _ _ Hi0 Hk) as (b' & Hb' & _ & Hhome).
    assert (b' = b) by congruence. subst b'.
    rewrite <- (strcmp_eq_home _ _ _ Hs) in Hhome.
    exists (value e), e, p, b. rewrite Hhome, Nat2Z.id. auto 10.
  - right. simpl. rewrite Hl'. simpl.
    assert (Hw : wrap (length t1 + 1) = length t1 + 1) by (apply wrap_small; dlia).
    rewrite Hw. split; [|lia].
    intros v0 Hp.
    pose proof (ht_set_overwrite _ _ _ _ _ _ _ _ _ _ _ Hreach Hp H0) as Hsame.
    simpl in Hsame. rewrite Hl' in Hsame. simpl in Hsame. lia.
Qed.

(** Overwriting.  On a table reachable from [ht_create] by [ht_set] calls
    alone, after [ht_set] of key [k] with [v1] returns 0 and [ht_set] of [k]
    with [v2] then returns 0, [ht_get] of [k] returns [v2] at its first
    look, and the length after the second call is the length after the
    first, growth in between or not. *)
Theorem overwrite_keeps_length_without_removals
    t h k v1 v2 f1 nd1 co1 so1 f2 nd2 co2 so2 t1 h1 t2 h2 :
  reachable_by_set (t, h) ->
  ht_set f1 nd1 co1 so1 t h k v1 = Ret (0, t1, h1) ->
  ht_set f2 nd2 co2 so2 t1 h1 k v2 = Ret (0, t2, h2) ->
  (forall fuel, ht_get (S fuel) t2 h2 k = Ret v2) /\
  length t2 = length t1.
Proof.
  intros Hreach H1 H2. apply reachable_by_set_inv in Hreach. simpl in Hreach.
  pose proof (ht_set_inv _ _ _ _ _ _ _ _ _ _ _ Hreach H1) as Hinv1.
  pose proof (ht_set_present _ _ _ _ _ _ _ _ _ _ Hreach H1) as Hp1.
  split.
  - intros fuel. apply ht_get_present.
    eapply ht_set_present; eauto.
  - eapply ht_set_overwrite; eauto.
Qed.

(** ** [ht_remove] *)

Lemma remove_loop_Ret fuel t h k index e p : forall r t' h',
  slot (entries t) index = Ret e -> key e = Some p ->
  remove_loop fuel t h k index = Ret (r, t', h') ->
  r = 0 /\ exists s, load h p = Ret s /\ strcmp_eq k s = true.
Proof.
  induction fuel as [|fuel IH]; intros r t' h' He Hk; simpl; [discriminate|].
  rewrite He. simpl. rewrite Hk. intros H. inv_bind H. rename a into s.
  destruct (strcmp_eq k s) eqn:Hs.
  - inv_bind H. injection H as <- _ _. eauto.
  - eapply IH; eauto.
Qed.

(** [ht_remove] looks at one slot only, the one the probe for its key would
    start at (given here as an index inside the array).  It returns exactly
    when that slot is empty (result -1, nothing changed) or holds a key equal
    to the one given (result 0); when the slot holds any other key the call
    returns for no number of iterations, and a key stored in a later slot is
    never reached. *)
Theorem ht_remove_returns_iff t h k e :
  entries t !! Z.to_nat (home k (capacity t)) = Some e ->
  ((exists fuel r t' h', ht_remove fuel t h k = Ret (r, t', h')) <->
   (key e = None \/
    exists p s, key e = Some p /\ load h p = Ret s /\ strcmp_eq k s = true)) /\
  (forall fuel r t' h', ht_remove fuel t h k = Ret (r, t', h') ->
     (r = -1 /\ key e = None /\ t' = t /\ h' = h) \/ (r = 0 /\ key e <> None)) /\
  (forall p s, key e = Some p -> load h p = Ret s -> strcmp_eq k s = false ->
     forall fuel, ht_remove fuel t h k = OutOfFuel).
Proof.
  intros He. apply slot_Ret in He.
  assert (Hinv : forall fuel r t' h', ht_remove fuel t h k = Ret (r, t', h') ->
            (r = -1 /\ key e = None /\ t' = t /\ h' = h) \/
            (r = 0 /\ exists p s, key e = Some p /\ load h p = Ret s /\
                                  strcmp_eq k s = true)).
  { intros fuel r t' h'. unfold ht_remove. rewrite He. simpl.
    destruct (key e) as [p|] eqn:Hk.
    - intros H. right.
      destruct (remove_loop_Ret _ _ _ _ _ _ _ _ _ _ He Hk H) as (-> & s & Hl & Hs).
      eauto 10.
    - intros [= <- <- <-]. left. auto. }
  split; [split|split].
  - intros (fuel & r & t' & h' & H).
    destruct (Hinv _ _ _ _ H) as [(_ & Hk & _)|(_ & Hm)]; auto.
  - intros [Hk|(p & s & Hk & Hl & Hs)].
    + exists O, (-1), t, h. unfold ht_remove. rewrite He. simpl. rewrite Hk.
      reflexivity.
    + pose proof Hl as Hl'. apply load_Ret in Hl' as (b & Hb & Hlive & Hc).
      exists 1%nat, 0,
        {| entries := entries t; capacity := capacity t;
           length := wrap (length t - 1) |},
        (<[ p := {| contents := EmptyString; live := false |} ]> h).
      unfold ht_remove. rewrite He. simpl. rewrite Hk. rewrite He. simpl.
      rewrite Hk, Hl. simpl. rewrite Hs. unfold free. rewrite Hb, Hlive.
      reflexivity.
  - intros fuel r t' h' H.
    destruct (Hinv _ _ _ _ H) as [?|(-> & p & s & Hk & _)]; [auto|].
    right. split; [reflexivity|congruence].
  - intros p s Hk Hl Hs fuel. eapply ht_remove_spins; eauto.
Qed.

Lemma removed_key_is_dangling fuel t h k t' h' :
  ht_remove fuel t h k = Ret (0, t', h') ->
  exists e p,
    entries t' !! Z.to_nat (home k (capacity t')) = Some e /\ key e = Some p /\
    load h' p = Crash UseAfterFree /\
    entries t' = entries t /\ capacity t' = capacity t.
Proof.
  intros H.
  apply ht_remove_cases in H
    as [(? & _)|(_ & e & p & b & He & Hk & Hb & _ & _ & -> & ->)]; [discriminate|].
  exists e, p. simpl. repeat split; auto.
  unfold load. rewrite list_lookup_insert_eq by (eapply lookup_lt_Some, Hb).
  reflexivity.
Qed.

(** A removed key is a trap.  After a successful [ht_remove] of [k] (on any
    table), [ht_get] of [k], a second [ht_remove] of [k] and [ht_set] of [k]
    with a value all read the freed key string, because the slot still
    points to it. *)
Theorem removed_key_faults fuel t h k t' h' :
  ht_remove fuel t h k = Ret (0, t', h') ->
  forall fuel',
    ht_get (S fuel') t' h' k = Crash UseAfterFree /\
    ht_remove (S fuel') t' h' k = Crash UseAfterFree /\
    (forall ndebug calloc_ok strdup_res v, v <> 0 -> length t' < capacity t' / 2 ->
       ht_set (S fuel') ndebug calloc_ok strdup_res t' h' k v
       = Crash UseAfterFree).
Proof.
  intros H fuel'.
  destruct (removed_key_is_dangling _ _ _ _ _ _ H) as (e & p & He & Hk & Hl & _).
  apply slot_Ret in He.
  split; [|split].
  - unfold ht_get. simpl. rewrite He. simpl. rewrite Hk, Hl. reflexivity.
  - unfold ht_remove. rewrite He. simpl. rewrite Hk, He. simpl.
    rewrite Hk, Hl. reflexivity.
  - intros nd co so v Hv Hroom. unfold ht_set.
    apply Z.eqb_neq in Hv. rewrite Hv.
    unfold grow_if_needed.
    assert (Hle : (capacity t' / 2 <=? length t') = false) by (apply Z.leb_gt; lia).
    rewrite Hle. simpl. unfold ht_set_entry. simpl. rewrite He. simpl.
    rewrite Hk, Hl. reflexivity.
Qed.

(** ** [ht_destroy] *)

Lemma destroy_loop_spec es : forall todo h h',
  destroy_loop h es todo = Ret h' ->
  List.length h' = List.length h /\
  (forall p b', h' !! p = Some b' -> live b' = true -> h !! p = Some b') /\
  (forall i e p, i ∈ todo -> es !! i = Some e -> key e = Some p ->
     (exists b, h !! p = Some b /\ live b = true) /\
     (exists b', h' !! p = Some b' /\ live b' = false)) /\
  (forall p, (forall i e, i ∈ todo -> es !! i = Some e -> key e <> Some p) ->
     h' !! p = h !! p).
Proof.
  induction todo as [|i0 todo IH]; intros h h' H.
  - simpl in H. injection H as <-.
    split; [reflexivity|]. split; [auto|]. split; [|auto].
    intros i e p Hin. inversion Hin.
  - simpl in H. inv_bind H. rename a into e0.
    apply slot_Ret in Hrun. rewrite Nat2Z.id in Hrun.
    inv_bind H. rename a into h1.
    destruct (IH _ _ H) as (Hlen & Hmono & Hfreed & Hframe).
    assert (Hstep : List.length h1 = List.length h /\
              (forall p b1, h1 !! p = Some b1 -> live b1 = true -> h !! p = Some b1) /\
              (forall p, key e0 <> Some p -> h1 !! p = h !! p) /\
              (forall p, key e0 = Some p ->
                 (exists b, h !! p = Some b /\ live b = true) /\
                 (exists b1, h1 !! p = Some b1 /\ live b1 = false))).
    { destruct (key e0) as [p0|].
      - apply free_Ret in Hrun0 as (b & Hb & Hlive & ->).
        assert (Hlt : (p0 < List.length h)%nat) by (eapply lookup_lt_Some, Hb).
        split; [apply length_insert|]. split; [|split].
        + intros p b1. destruct (decide (p0 = p)) as [->|Hne].
          * rewrite list_lookup_insert_eq by exact Hlt. intros [= <-]. discriminate.
          * rewrite list_lookup_insert_ne by exact Hne. auto.
        + intros p Hne. apply list_lookup_insert_ne. congruence.
        + intros p [= <-]. split; [eauto|].
          eexists. split; [apply list_lookup_insert_eq; exact Hlt|reflexivity].
      - injection Hrun0 as <-. repeat split; auto; discriminate. }
    destruct Hstep as (Hlen1 & Hmono1 & Hframe1 & Hfree1).
    split; [congruence|]. split; [|split].
    + intros p b' Hp Hl. apply Hmono1; auto.
    + intros i e p Hin Hi Hk. apply elem_of_cons in Hin as [->|Hin].
      * assert (e0 = e) by congruence. subst e0.
        destruct (Hfree1 p Hk) as (Hwas & b1 & Hb1 & Hdead).
        split; [exact Hwas|].
        assert (Hlt : (p < List.length h')%nat)
          by (rewrite Hlen; eapply lookup_lt_Some, Hb1).
        destruct (lookup_lt_is_Some_2 h' p Hlt) as [b' Hb'].
        exists b'. split; [exact Hb'|].
        destruct (live b') eqn:E; [|reflexivity].
        rewrite (Hmono _ _ Hb' E) in Hb1. injection Hb1 as ->. congruence.
      * destruct (Hfreed _ _ _ Hin Hi Hk) as ((b1 & Hb1 & Hl1) & Hnow).
        split; [|exact Hnow]. exists b1. split; [|exact Hl1]. apply Hmono1; auto.
    + intros p Hnone. rewrite Hframe.
      * apply Hframe1. apply (Hnone i0 e0); [left|exact Hrun].
      * intros i e Hin. apply Hnone. by right.
Qed.

(** When [ht_destroy] returns it has freed exactly the key strings the
    slots point to: each of them was allocated and is freed now, and every
    other string of the store is as it was (the table never frees what no
    slot points to, such as a key whose slot was taken by another key). *)
Theorem ht_destroy_frees_stored_keys t h h' :
  Z.of_nat (List.length (entries t)) = capacity t ->
  ht_destroy t h = Ret h' ->
  (forall (i : nat) e p, entries t !! i = Some e -> key e = Some p ->
     (exists b, h !! p = Some b /\ live b = true) /\
     (exists b', h' !! p = Some b' /\ live b' = false)) /\
  (forall p, (forall (i : nat) e, entries t !! i = Some e -> key e <> Some p) ->
     h' !! p = h !! p).
Proof.
  intros Hlen H. unfold ht_destroy in H.
  destruct (destroy_loop_spec _ _ _ _ H) as (_ & _ & Hfreed & Hframe).
  split.
  - intros i e p Hi Hk. apply (Hfreed i e p); auto.
    apply elem_of_seq. apply lookup_lt_Some in Hi. lia.
  - intros p Hnone. apply Hframe. intros i e _. apply Hnone.
Qed.

Lemma destroy_loop_fault es : forall todo h f,
  (forall i, i ∈ todo -> (i < List.length es)%nat) ->
  destroy_loop h es todo = Crash f -> f = UseAfterFree.
Proof.
  induction todo as [|i0 todo IH]; intros h f Hin; simpl; [discriminate|].
  unfold slot. rewrite Nat2Z.id.
  destruct (lookup_lt_is_Some_2 es i0) as [e He]; [apply Hin; left|].
  rewrite He. simpl.
  assert (Hrest : forall i, i ∈ todo -> (i < List.length es)%nat)
    by (intros i Hi; apply Hin; by right).
  destruct (key e) as [p|]; simpl.
  - unfold free. destruct (h !! p) as [b|]; [|intros [= <-]; reflexivity].
    destruct (live b); simpl; [|intros [= <-]; reflexivity].
    apply IH, Hrest.
  - apply IH, Hrest.
Qed.

Lemma destroy_loop_returns_or_faults es : forall todo h,
  destroy_loop h es todo <> OutOfFuel.
Proof.
  induction todo as [|i0 todo IH]; intros h; simpl; [discriminate|].
  unfold slot. destruct (es !! _) as [e|]; simpl; [|discriminate].
  destruct (key e) as [p|]; simpl; [|apply IH].
  unfold free. destruct (h !! p) as [b|]; [|discriminate].
  destruct (live b); simpl; [apply IH|discriminate].
Qed.

(** [ht_destroy] after a successful [ht_remove] frees the removed key a
    second time: the slot still points to the string [ht_remove] freed. *)
Theorem ht_destroy_after_remove_frees_twice fuel t h k t' h' :
  Z.of_nat (List.length (entries t)) = capacity t ->
  ht_remove fuel t h k = Ret (0, t', h') ->
  ht_destroy t' h' = Crash UseAfterFree.
Proof.
  intros Hlen H.
  destruct (removed_key_is_dangling _ _ _ _ _ _ H)
    as (e & p & He & Hk & Hl & Hes & Hcap).
  assert (Hlen' : Z.of_nat (List.length (entries t')) = capacity t') by congruence.
  destruct (ht_destroy t' h') as [h2|f|] eqn:Hd.
  - exfalso. unfold ht_destroy in Hd.
    destruct (destroy_loop_spec _ _ _ _ Hd) as (_ & _ & Hfreed & _).
    destruct (Hfreed (Z.to_nat (home k (capacity t'))) e p)
      as ((b & Hb & Hlive) & _); auto.
    + apply elem_of_seq. apply lookup_lt_Some in He. lia.
    + unfold load in Hl. rewrite Hb, Hlive in Hl. discriminate.
  - f_equal. unfold ht_destroy in Hd. eapply destroy_loop_fault; [|exact Hd].
    intros i Hi. apply elem_of_seq in Hi. lia.
  - exfalso. unfold ht_destroy in Hd. eapply destroy_loop_returns_or_faults, Hd.
Qed.

(** ** The cursor *)

Lemma ht_next_spec t :
  Z.of_nat (List.length (entries t)) = capacity t -> capacity t < 2 ^ 64 ->
  forall slots fuel it,
    0 <= _index it <= capacity t ->
    drop (Z.to_nat (_index it)) (entries t) = slots ->
    (List.length slots < fuel)%nat ->
    match occupied slots with
    | [] =>
        ht_next fuel t it
        = Ret (false, {| _index := capacity t; it_key := it_key it;
                         it_value := it_value it |})
    | (kp, v) :: rest =>
        exists j,
          ht_next fuel t it
          = Ret (true, {| _index := j; it_key := kp; it_value := v |}) /\
          _index it < j <= capacity t /\
          occupied (drop (Z.to_nat j) (entries t)) = rest
    end.
Proof.
  intros Hlen Hc. induction slots as [|e tl IH]; intros fuel it Hi Hdrop Hfuel.
  - assert (Hidx : _index it = capacity t).
    { apply (f_equal List.length) in Hdrop. rewrite length_drop in Hdrop.
      simpl in Hdrop. lia. }
    destruct fuel as [|fuel]; [simpl in Hfuel; lia|]. simpl.
    assert (Hlt : (_index it <? capacity t) = false) by (apply Z.ltb_ge; lia).
    rewrite Hlt. destruct it; simpl in *; subst; reflexivity.
  - assert (He : entries t !! Z.to_nat (_index it) = Some e).
    { rewrite <- (Nat.add_0_r (Z.to_nat (_index it))), <- lookup_drop, Hdrop.
      reflexivity. }
    assert (Hin : _index it < capacity t).
    { apply lookup_lt_Some in He. lia. }
    assert (Htl : drop (S (Z.to_nat (_index it))) (entries t) = tl).
    { rewrite (drop_S _ _ _ He) in Hdrop. congruence. }
    destruct fuel as [|fuel]; [simpl in Hfuel; lia|]. simpl in Hfuel.
    cbn [ht_next].
    assert (Hlt : (_index it <? capacity t) = true) by (apply Z.ltb_lt; lia).
    rewrite Hlt. apply slot_Ret in He. rewrite He.
    rewrite wrap_small by lia. simpl.
    destruct (key e) as [p|] eqn:Hk.
    + exists (_index it + 1). split; [reflexivity|]. split; [lia|].
      replace (Z.to_nat (_index it + 1)) with (S (Z.to_nat (_index it))) by lia.
      rewrite Htl. reflexivity.
    + specialize (IH fuel
        {| _index := _index it + 1; it_key := it_key it; it_value := it_value it |}).
      simpl in IH.
      replace (Z.to_nat (_index it + 1)) with (S (Z.to_nat (_index it))) in IH by lia.
      specialize (IH ltac:(lia) Htl ltac:(lia)).
      destruct (occupied tl) as [|[kp v] rest]; [exact IH|].
      destruct IH as (j & Hj & Hr & Ho). exists j. split; [exact Hj|]. split; [lia|exact Ho].
Qed.

Lemma cursor_yield_spec t fuel :
  Z.of_nat (List.length (entries t)) = capacity t -> capacity t < 2 ^ 64 ->
  (List.length (entries t) < fuel)%nat ->
  forall rounds it,
    0 <= _index it <= capacity t ->
    (List.length (occupied (drop (Z.to_nat (_index it)) (entries t))) < rounds)%nat ->
    cursor_yield rounds fuel t it
    = Ret (occupied (drop (Z.to_nat (_index it)) (entries t))).
Proof.
  intros Hlen Hc Hfuel.
  induction rounds as [|rounds IH]; intros it Hi Hr; [lia|].
  simpl.
  pose proof (ht_next_spec t Hlen Hc _ fuel it Hi eq_refl) as Hnext.
  assert (Hsuf : (List.length (drop (Z.to_nat (_index it)) (entries t)) < fuel)%nat)
    by (rewrite length_drop; lia).
  specialize (Hnext Hsuf).
  destruct (occupied (drop (Z.to_nat (_index it)) (entries t)))
    as [|[kp v] rest].
  - rewrite Hnext. reflexivity.
  - destruct Hnext as (j & -> & Hj & Ho). simpl.
    specialize (IH {| _index := j; it_key := kp; it_value := v |}). simpl in IH.
    rewrite Ho in IH. rewrite IH; [reflexivity|lia|simpl in Hr; lia].
Qed.

(** A cursor started on a table nobody changes meanwhile hands out the
    occupied slots, all of them and nothing else, in array order and each
    once, and then reports exhaustion; a slot counts as occupied by its key
    pointer alone, freed or not. *)
Theorem cursor_yields_occupied_slots rounds fuel t :
  Z.of_nat (List.length (entries t)) = capacity t -> capacity t < 2 ^ 64 ->
  (List.length (entries t) < fuel)%nat ->
  (List.length (occupied (entries t)) < rounds)%nat ->
  cursor_yield rounds fuel t ht_iterator = Ret (occupied (entries t)).
Proof.
  intros Hlen Hc Hfuel Hr.
  apply (cursor_yield_spec t fuel Hlen Hc Hfuel rounds ht_iterator);
    simpl; [lia|exact Hr].
Qed.

(** ** A new table *)


(** ** Growth *)

(** The home-slot invariant.  In every table reachable from [ht_create] by
    [ht_set] calls alone (growth included), every occupied
    slot [i] holds a key that has not been freed and whose home index
    [hash & (capacity - 1)] is [i].  An insertion of a new key writes the
    copied key and the value into the home slot of the key, whatever slot
    the probe stopped at.  A growth that is not refused (the capacity can be
    doubled and [calloc] succeeds) returns after one look at the new array
    for each key; the array it builds has twice the capacity, holds every
    entry of the old array in the home slot of its key for the new capacity,
    and holds nothing else. *)
Theorem home_slot_invariant t h :
  reachable_by_set (t, h) ->
  homed h (entries t) (capacity t) /\
  (forall fuel k strdup_res v r,
     ht_set_entry fuel h (entries t) (capacity t)
       (Insert k (length t) strdup_res) v = Ret r ->
     sr_length r = Some (wrap (length t + 1)) ->
     sr_entries r
     = <[ Z.to_nat (home k (capacity t)) := {| key := sr_ret r; value := v |} ]>
         (entries t)) /\
  (forall fuel, capacity t < 2 ^ 63 ->
     exists t', ht_expand (S fuel) true t h = Ret (true, t')) /\
  (forall fuel calloc_ok t',
     ht_expand fuel calloc_ok t h = Ret (true, t') ->
     capacity t' = 2 * capacity t /\
     homed h (entries t') (capacity t') /\
     (forall (i : nat) e p, entries t !! i = Some e -> key e = Some p ->
        exists b, h !! p = Some b /\
          entries t' !! Z.to_nat (home (contents b) (capacity t')) = Some e) /\
     (forall (j : nat) e p, entries t' !! j = Some e -> key e = Some p ->
        exists i : nat, entries t !! i = Some e)).
Proof.
  intros Hreach. apply reachable_by_set_inv in Hreach. simpl in Hreach.
  split; [apply (inv_home _ _ Hreach)|]. split; [|split].
  - intros fuel k so v r Hrun Hlen.
    apply ht_set_entry_insert in Hrun as [_ Hcase].
    destruct Hcase as [_ _ Hl _|i e p s _ _ _ _ _ _ Hl _|addr p h' _ Hret Hes _ _].
    + rewrite Hl in Hlen. injection Hlen as Hlen.
      symmetry in Hlen. by apply wrap_succ_neq in Hlen.
    + rewrite Hl in Hlen. injection Hlen as Hlen.
      symmetry in Hlen. by apply wrap_succ_neq in Hlen.
    + rewrite Hret. exact Hes.
  - intros fuel Hsmall. apply ht_expand_returns; assumption.
  - intros fuel co t' Hx.
    pose proof (ht_expand_origin _ _ _ _ _ Hreach Hx) as Horigin.
    apply (ht_expand_spec _ _ _ _ _ Hreach) in Hx.
    destruct Hx as (Hc & _ & _ & _ & Hh & Hmoved & _).
    split; [exact Hc|]. split; [exact Hh|]. split; [exact Hmoved|exact Horigin].
Qed.

(** Growth loses nothing that could be found: on a table reachable from
    [ht_create] by [ht_set] calls alone, a key that is present is present
    with the same value in the table [ht_expand] builds, whose capacity is
    doubled and whose length is the same. *)
Theorem ht_expand_keeps_present_keys fuel calloc_ok t h t' k v :
  reachable_by_set (t, h) ->
  present k v t h ->
  ht_expand fuel calloc_ok t h = Ret (true, t') ->
  present k v t' h /\ capacity t' = 2 * capacity t /\ length t' = length t.
Proof.
  intros Hreach (e & p & b & He & Hk & Hv & Hb & Hlive & Hs) H.
  apply reachable_by_set_inv in Hreach. simpl in Hreach.
  destruct (ht_expand_spec _ _ _ _ _ Hreach H) as (Hc & Hl & _ & _ & _ & Hmoved & _).
  split; [|auto].
  destruct (Hmoved _ _ _ He Hk) as (b' & Hb' & He1).
  assert (b' = b) by congruence. subst b'.
  rewrite <- (strcmp_eq_home _ _ _ Hs) in He1.
  exists e, p, b. auto 10.
Qed.

Lemma homed_all_live h es cap : homed h es cap -> all_live h es.
Proof.
  intros Hh i e p Hi Hk. destruct (Hh _ _ _ Hi Hk) as (b & Hb & Hlive & _).
  exists (contents b). apply load_Ret. eauto.
Qed.

(** On a table nothing was removed from, the second half of [ht_set]
    succeeds when [strdup] does. *)
Lemma ht_set_entry_succeeds fuel t h k addr v :
  ht_inv t h -> capacity t <= Z.of_nat fuel ->
  exists sr p,
    ht_set_entry fuel h (entries t) (capacity t) (Insert k (length t) (Some addr)) v
    = Ret sr /\ sr_ret sr = Some p.
Proof.
  intros Hinv Hfuel.
  pose proof (pow2_cap_size_t _ (inv_cap _ _ Hinv)) as Hsz.
  pose proof (home_bounds k (capacity t) ltac:(lia)) as Hx.
  pose proof (steps_from_range _ _ _ Hx Hx) as Hs0.
  unfold ht_set_entry. cbn [mode_key mbind outcome_bind].
  destruct (probe_result fuel h (entries t) (capacity t) k
              (home k (capacity t)) (home k (capacity t)))
    as [[r Hr]|Hr]; auto; try lia.
  - apply (inv_len _ _ Hinv).
  - rewrite Hr. cbn [mbind outcome_bind]. destruct r as [i e|i|].
    + apply probe_Match in Hr as (_ & p & s & Hk & _).
      eexists _, p. split; [reflexivity|exact Hk].
    + destruct (strdup h k addr) as [p h1]. eexists _, p. split; reflexivity.
    + exfalso. eapply ht_inv_not_full; eauto.
  - exfalso. eapply probe_all_live; [|exact Hr].
    eapply homed_all_live, (inv_home _ _ Hinv).
Qed.

(** [ht_set] grows the table exactly when it is called with
    [length >= capacity / 2].  On a table reachable from [ht_create] by
    [ht_set] calls alone, a call with a value, for which [calloc] and
    [strdup] succeed and whose capacity can be doubled, returns 0 within
    twice [capacity] iterations of each loop; the table it leaves has the
    capacity doubled when the call was made at that load, and the capacity
    it found when it was made below it. *)
Theorem ht_set_grows_at_half_load fuel ndebug addr t h k v :
  reachable_by_set (t, h) ->
  v <> 0 -> capacity t < 2 ^ 63 -> 2 * capacity t <= Z.of_nat fuel ->
  exists t' h',
    ht_set fuel ndebug true (Some addr) t h k v = Ret (0, t', h') /\
    (capacity t / 2 <= length t -> capacity t' = 2 * capacity t) /\
    (length t < capacity t / 2 -> capacity t' = capacity t).
Proof.
  intros Hreach Hv Hsmall Hfuel.
  apply reachable_by_set_inv in Hreach. simpl in Hreach.
  pose proof (pow2_cap_range _ (inv_cap _ _ Hreach)) as Hr.
  assert (Hg : exists t1,
             grow_if_needed fuel true t h = Ret (Some t1) /\
             (capacity t / 2 <= length t -> capacity t1 = 2 * capacity t) /\
             (length t < capacity t / 2 -> capacity t1 = capacity t)).
  { unfold grow_if_needed. destruct (capacity t / 2 <=? length t) eqn:Hfull.
    - apply Z.leb_le in Hfull.
      destruct fuel as [|fuel]; [lia|].
      destruct (ht_expand_returns fuel t h Hreach Hsmall) as [t1 Hx].
      exists t1. rewrite Hx. cbn [mbind outcome_bind].
      split; [reflexivity|]. split; [|lia].
      intros _. apply (ht_expand_spec _ _ _ _ _ Hreach Hx).
    - apply Z.leb_gt in Hfull. exists t. split; [reflexivity|]. split; [lia|auto]. }
  destruct Hg as (t1 & Hg & Hgrown & Hkept).
  destruct (grow_if_needed_spec _ _ _ _ _ Hreach Hg) as (Hinv1 & _ & _ & Hc & _).
  destruct (ht_set_entry_succeeds fuel t1 h k addr v Hinv1 ltac:(lia))
    as (sr & p & He & Hret).
  unfold ht_set. apply Z.eqb_neq in Hv. rewrite Hv, Hg. cbn [mbind outcome_bind].
  rewrite He. cbn [mbind outcome_bind]. rewrite Hret.
  eexists _, _. split; [reflexivity|]. simpl. auto.
Qed.


(** ** The further properties at concrete tables *)

Lemma hash_key_of_equal_strings_witness :
  strcmp_eq "a" (String "a" (String zero "x")) = true /\
  hash_key "a" = hash_key (String "a" (String zero "x")) /\
  0 <= home "a" 16 < 16.
Proof.
  assert (Hs : strcmp_eq "a" (String "a" (String zero "x")) = true)
    by (vm_compute; reflexivity).
  assert (Hc : 0 < 16 <= 2 ^ 64) by (split; [lia|vm_compute; discriminate]).
  destruct (hash_key_of_equal_strings _ _ 16 Hs Hc) as (Hh & _ & _ & Hb).
  split; [exact Hs|]. split; [exact Hh|exact Hb].
Defined.

Lemma ht_get_returns_within_capacity_witness :
  Z.of_nat (List.length (entries table_a)) = capacity table_a /\
  ((exists v, ht_get 16 table_a heap_a "b" = Ret v) \/
   ht_get 16 table_a heap_a "b" = Crash UseAfterFree).
Proof.
  assert (Hlen : Z.of_nat (List.length (entries table_a)) = capacity table_a)
    by reflexivity.
  assert (Hc : 0 < capacity table_a < 2 ^ 64)
    by (split; [reflexivity|vm_compute; reflexivity]).
  assert (Hfuel : capacity table_a <= Z.of_nat 16) by (vm_compute; discriminate).
  split; [exact Hlen|].
  exact (proj1 (ht_get_returns_within_capacity 16 table_a heap_a "b" Hlen Hc Hfuel)).
Defined.

Lemma ht_set_stops_witness :
  ht_set 32 true true (Some 1%nat) table_a heap_a "b" 2 <> OutOfFuel.
Proof.
  assert (Hc : 0 < capacity table_a < 2 ^ 64)
    by (split; [reflexivity|vm_compute; reflexivity]).
  assert (Hfuel : 2 * capacity table_a <= Z.of_nat 32) by (vm_compute; discriminate).
  exact (ht_set_stops 32 true true (Some 1%nat) table_a heap_a "b" 2 Hc Hfuel).
Defined.

Lemma ht_set_fails_only_for_lack_of_memory_witness :
  ht_set 16 true true None fresh [] "a" 1 = Ret (-1, fresh, []) /\
  (1 = 0 \/
   (capacity fresh / 2 <= length fresh /\ (true = false \/ capacity fresh = 2 ^ 63)) \/
   @None nat = None).
Proof.
  assert (Hreach : reachable_by_set (fresh, []))
    by (apply (set_create true true true); reflexivity).
  assert (H : ht_set 16 true true None fresh [] "a" 1 = Ret (-1, fresh, []))
    by (vm_compute; reflexivity).
  assert (Hr : -1 <> 0) by lia.
  split; [exact H|].
  exact (ht_set_fails_only_for_lack_of_memory _ _ _ _ _ _ _ _ _ _ _ Hreach H Hr).
Defined.

Lemma stored_values_never_null_witness :
  reachable (table_a, heap_a) /\
  value {| key := Some 0%nat; value := 1 |} <> 0.
Proof.
  assert (Hreach : reachable (table_a, heap_a)).
  { apply (reach_step (fresh, [])).
    - apply (reach_create true true true). reflexivity.
    - apply (step_set 16 true true (Some 0%nat) fresh [] "a" 1 0).
      vm_compute. reflexivity. }
  split; [exact Hreach|].
  apply (stored_values_never_null table_a heap_a 12 _ 0%nat Hreach); reflexivity.
Defined.

Lemma ht_get_finds_exactly_home_slot_witness :
  reachable_by_set (table_a, heap_a) /\
  (ht_get 1 table_a heap_a "a" = Ret 1 <-> present "a" 1 table_a heap_a).
Proof.
  assert (Hreach : reachable_by_set (table_a, heap_a)).
  { apply (set_step 16 true true (Some 0%nat) fresh [] "a" 1 0).
    - apply (set_create true true true). reflexivity.
    - vm_compute. reflexivity. }
  assert (Hv : 1 <> 0) by lia.
  split; [exact Hreach|].
  exact (ht_get_finds_exactly_home_slot 0 table_a heap_a "a" 1 Hreach Hv).
Defined.

Lemma ht_get_null_means_absent_witness :
  reachable (table_a, heap_a) /\
  ht_get 16 table_a heap_a "b" = Ret 0 /\
  ~ present "b" 2 table_a heap_a.
Proof.
  assert (Hreach : reachable (table_a, heap_a)).
  { apply (reach_step (fresh, [])).
    - apply (reach_create true true true). reflexivity.
    - apply (step_set 16 true true (Some 0%nat) fresh [] "a" 1 0).
      vm_compute. reflexivity. }
  assert (H : ht_get 16 table_a heap_a "b" = Ret 0) by (vm_compute; reflexivity).
  split; [exact Hreach|]. split; [exact H|].
  exact (ht_get_null_means_absent 16 table_a heap_a "b" Hreach H 2).
Defined.

Lemma ht_set_then_get_witness :
  reachable (aliased.1, aliased.2) /\
  ht_set 64 true true (Some 2%nat) aliased.1 aliased.2 "a" 9
    = Ret (0, aliased_again.1, aliased_again.2) /\
  capacity aliased_again.1 <= Z.of_nat 16 /\
  ht_get 16 aliased_again.1 aliased_again.2 "a" = Ret 9.
Proof.
  assert (Hreach : reachable (aliased.1, aliased.2)).
  { rewrite <- surjective_pairing. apply reachable_after. }
  assert (H : ht_set 64 true true (Some 2%nat) aliased.1 aliased.2 "a" 9
              = Ret (0, aliased_again.1, aliased_again.2))
    by (vm_compute; reflexivity).
  assert (Hfuel : capacity aliased_again.1 <= Z.of_nat 16)
    by (vm_compute; discriminate).
  split; [exact Hreach|]. split; [exact H|]. split; [exact Hfuel|].
  exact (ht_set_then_get _ _ _ _ _ _ _ _ _ _ Hreach H 16%nat Hfuel).
Defined.

Lemma ht_set_keeps_keys_of_other_slots_witness :
  present "a" 1 table_a heap_a /\
  ht_set 16 true true (Some 1%nat) table_a heap_a "b" 2 = Ret (0, table_ab, heap_ab) /\
  home "b" (capacity table_ab) <> home "a" (capacity table_ab) /\
  present "a" 1 table_ab heap_ab.
Proof.
  assert (Hreach : reachable_by_set (table_a, heap_a)).
  { apply (set_step 16 true true (Some 0%nat) fresh [] "a" 1 0).
    - apply (set_create true true true). reflexivity.
    - vm_compute. reflexivity. }
  assert (Hp : present "a" 1 table_a heap_a).
  { exists {| key := Some 0%nat; value := 1 |}, 0%nat,
      {| contents := "a"; live := true |}.
    repeat split; vm_compute; reflexivity. }
  assert (H : ht_set 16 true true (Some 1%nat) table_a heap_a "b" 2
              = Ret (0, table_ab, heap_ab)) by (vm_compute; reflexivity).
  assert (Hne : home "b" (capacity table_ab) <> home "a" (capacity table_ab))
    by (vm_compute; discriminate).
  split; [exact Hp|]. split; [exact H|]. split; [exact Hne|].
  exact (ht_set_keeps_keys_of_other_slots _ _ _ _ _ _ _ _ _ _ _ _ _
           Hreach Hp H Hne).
Defined.

Lemma ht_set_evicts_colliding_key_witness :
  ht_set 16 true true (Some 1%nat) table_a heap_a "q" 2 = Ret (0, table_aq, heap_aq) /\
  strcmp_eq "q" "a" = false /\
  home "q" (capacity table_aq) = home "a" (capacity table_aq) /\
  ht_get 16 table_aq heap_aq "a" = Ret 0.
Proof.
  assert (Hreach : reachable_by_set (table_a, heap_a)).
  { apply (set_step 16 true true (Some 0%nat) fresh [] "a" 1 0).
    - apply (set_create true true true). reflexivity.
    - vm_compute. reflexivity. }
  assert (H : ht_set 16 true true (Some 1%nat) table_a heap_a "q" 2
              = Ret (0, table_aq, heap_aq)) by (vm_compute; reflexivity).
  assert (Hs : strcmp_eq "q" "a" = false) by (vm_compute; reflexivity).
  assert (Hh : home "q" (capacity table_aq) = home "a" (capacity table_aq))
    by (vm_compute; reflexivity).
  split; [exact H|]. split; [exact Hs|]. split; [exact Hh|].
  destruct (ht_get 16 table_aq heap_aq "a") as [w| |] eqn:Hget;
    try (vm_compute in Hget; discriminate Hget).
  f_equal.
  exact (ht_set_evicts_colliding_key _ _ _ _ _ _ _ _ _ _ _ Hreach H Hs Hh
           16%nat w Hget).
Defined.

Lemma ht_set_length_witness :
  ht_set 16 true true (Some 0%nat) fresh [] "a" 1 = Ret (0, table_a, heap_a) /\
  (((exists v0, present "a" v0 fresh []) /\ length table_a = length fresh) \/
   ((forall v0, ~ present "a" v0 fresh []) /\ length table_a = length fresh + 1)).
Proof.
  assert (Hreach : reachable_by_set (fresh, []))
    by (apply (set_create true true true); reflexivity).
  assert (H : ht_set 16 true true (Some 0%nat) fresh [] "a" 1 = Ret (0, table_a, heap_a))
    by (vm_compute; reflexivity).
  split; [exact H|].
  exact (ht_set_length _ _ _ _ _ _ _ _ _ _ Hreach H).
Defined.

Lemma overwrite_keeps_length_without_removals_witness :
  reachable_by_set (fresh, []) /\
  ht_set 16 true true (Some 0%nat) fresh [] "a" 1 = Ret (0, table_a, heap_a) /\
  ht_set 16 true true (Some 1%nat) table_a heap_a "a" 2
    = Ret (0, table_a_again, heap_a) /\
  ht_get 1 table_a_again heap_a "a" = Ret 2 /\
  length table_a_again = length table_a.
Proof.
  assert (Hreach : reachable_by_set (fresh, []))
    by (apply (set_create true true true); reflexivity).
  assert (H1 : ht_set 16 true true (Some 0%nat) fresh [] "a" 1
               = Ret (0, table_a, heap_a))
    by (vm_compute; reflexivity).
  assert (H2 : ht_set 16 true true (Some 1%nat) table_a heap_a "a" 2
               = Ret (0, table_a_again, heap_a))
    by (vm_compute; reflexivity).
  split; [exact Hreach|]. split; [exact H1|]. split; [exact H2|].
  destruct (overwrite_keeps_length_without_removals _ _ _ _ _ _ _ _ _ _ _ _ _ _ _ _ _
              Hreach H1 H2) as [Hget Hlen].
  split; [exact (Hget O)|exact Hlen].
Defined.

Lemma ht_remove_returns_iff_witness :
  entries table_a !! Z.to_nat (home "q" (capacity table_a))
    = Some {| key := Some 0%nat; value := 1 |} /\
  ht_remove 5 table_a heap_a "q" = OutOfFuel.
Proof.
  assert (He : entries table_a !! Z.to_nat (home "q" (capacity table_a))
               = Some {| key := Some 0%nat; value := 1 |}) by (vm_compute; reflexivity).
  split; [exact He|].
  refine (proj2 (proj2 (ht_remove_returns_iff table_a heap_a "q" _ He))
            0%nat "a"%string _ _ _ 5%nat); vm_compute; reflexivity.
Defined.

Lemma removed_key_faults_witness :
  ht_remove 1 table_a heap_a "a" = Ret (0, table_a_removed, heap_a_freed) /\
  ht_get 1 table_a_removed heap_a_freed "a" = Crash UseAfterFree.
Proof.
  assert (H : ht_remove 1 table_a heap_a "a" = Ret (0, table_a_removed, heap_a_freed))
    by (vm_compute; reflexivity).
  split; [exact H|].
  exact (proj1 (removed_key_faults _ _ _ _ _ _ H 0%nat)).
Defined.

Lemma ht_destroy_frees_stored_keys_witness :
  ht_destroy table_a heap_a = Ret heap_a_freed /\
  exists b', heap_a_freed !! 0%nat = Some b' /\ live b' = false.
Proof.
  assert (Hlen : Z.of_nat (List.length (entries table_a)) = capacity table_a)
    by reflexivity.
  assert (H : ht_destroy table_a heap_a = Ret heap_a_freed)
    by (vm_compute; reflexivity).
  split; [exact H|].
  refine (proj2 (proj1 (ht_destroy_frees_stored_keys _ _ _ Hlen H) 12%nat
                   {| key := Some 0%nat; value := 1 |} 0%nat _ _)); reflexivity.
Defined.

Lemma ht_destroy_after_remove_frees_twice_witness :
  ht_remove 1 table_a heap_a "a" = Ret (0, table_a_removed, heap_a_freed) /\
  ht_destroy table_a_removed heap_a_freed = Crash UseAfterFree.
Proof.
  assert (Hlen : Z.of_nat (List.length (entries table_a)) = capacity table_a)
    by reflexivity.
  assert (H : ht_remove 1 table_a heap_a "a" = Ret (0, table_a_removed, heap_a_freed))
    by (vm_compute; reflexivity).
  split; [exact H|].
  exact (ht_destroy_after_remove_frees_twice _ _ _ _ _ _ Hlen H).
Defined.

Lemma cursor_yields_occupied_slots_witness :
  cursor_yield 3 17 table_ab ht_iterator = Ret [(Some 1%nat, 2); (Some 0%nat, 1)].
Proof.
  assert (Hlen : Z.of_nat (List.length (entries table_ab)) = capacity table_ab)
    by reflexivity.
  assert (Hc : capacity table_ab < 2 ^ 64) by (vm_compute; reflexivity).
  assert (Hfuel : (List.length (entries table_ab) < 17)%nat) by (vm_compute; lia).
  assert (Hr : (List.length (occupied (entries table_ab)) < 3)%nat)
    by (vm_compute; lia).
  exact (cursor_yields_occupied_slots 3 17 table_ab Hlen Hc Hfuel Hr).
Defined.


Lemma home_slot_invariant_witness :
  reachable_by_set (table_a, heap_a) /\
  homed heap_a (entries table_a) (capacity table_a) /\
  ht_expand 1 true table_a heap_a = Ret (true, table_a_grown) /\
  homed heap_a (entries table_a_grown) (capacity table_a_grown) /\
  (exists b, heap_a !! 0%nat = Some b /\
     entries table_a_grown !! Z.to_nat (home (contents b) (capacity table_a_grown))
     = Some {| key := Some 0%nat; value := 1 |}).
Proof.
  assert (Hreach : reachable_by_set (table_a, heap_a)).
  { apply (set_step 16 true true (Some 0%nat) fresh [] "a" 1 0).
    - apply (set_create true true true). reflexivity.
    - vm_compute. reflexivity. }
  assert (Hx : ht_expand 1 true table_a heap_a = Ret (true, table_a_grown))
    by (vm_compute; reflexivity).
  destruct (home_slot_invariant table_a heap_a Hreach) as (Hh & _ & _ & Hgrow).
  destruct (Hgrow _ _ _ Hx) as (_ & Hh' & Hmoved & _).
  split; [exact Hreach|]. split; [exact Hh|]. split; [exact Hx|].
  split; [exact Hh'|].
  apply (Hmoved 12%nat {| key := Some 0%nat; value := 1 |} 0%nat);
    vm_compute; reflexivity.
Defined.

Lemma ht_expand_keeps_present_keys_witness :
  present "a" 1 table_a heap_a /\
  ht_expand 64 true table_a heap_a = Ret (true, table_a_grown) /\
  present "a" 1 table_a_grown heap_a.
Proof.
  assert (Hreach : reachable_by_set (table_a, heap_a)).
  { apply (set_step 16 true true (Some 0%nat) fresh [] "a" 1 0).
    - apply (set_create true true true). reflexivity.
    - vm_compute. reflexivity. }
  assert (Hp : present "a" 1 table_a heap_a).
  { exists {| key := Some 0%nat; value := 1 |}, 0%nat,
      {| contents := "a"; live := true |}.
    repeat split; vm_compute; reflexivity. }
  assert (H : ht_expand 64 true table_a heap_a = Ret (true, table_a_grown))
    by (vm_compute; reflexivity).
  split; [exact Hp|]. split; [exact H|].
  exact (proj1 (ht_expand_keeps_present_keys _ _ _ _ _ _ _ Hreach Hp H)).
Defined.

Lemma ht_set_grows_at_half_load_witness :
  reachable_by_set (eight_keys.1, eight_keys.2) /\
  capacity eight_keys.1 / 2 <= length eight_keys.1 /\
  exists t' h',
    ht_set 64 true true (Some 8%nat) eight_keys.1 eight_keys.2 "i" 9
    = Ret (0, t', h') /\
    capacity t' = 2 * capacity eight_keys.1.
Proof.
  assert (Hreach : reachable_by_set (eight_keys.1, eight_keys.2)).
  { rewrite <- surjective_pairing. apply reachable_by_set_after. reflexivity. }
  assert (Hv : 9 <> 0) by lia.
  assert (Hsmall : capacity eight_keys.1 < 2 ^ 63) by (vm_compute; reflexivity).
  assert (Hfuel : 2 * capacity eight_keys.1 <= Z.of_nat 64)
    by (vm_compute; discriminate).
  assert (Hfull : capacity eight_keys.1 / 2 <= length eight_keys.1)
    by (vm_compute; discriminate).
  split; [exact Hreach|]. split; [exact Hfull|].
  destruct (ht_set_grows_at_half_load 64 true 8 eight_keys.1 eight_keys.2 "i" 9
              Hreach Hv Hsmall Hfuel) as (t' & h' & H & Hgrow & _).
  exists t', h'. split; [exact H|exact (Hgrow Hfull)].
Defined.
